(** * Podcastr: the content query / mutation layer and the Discover page

    A shallow embedding of [convex/podcast.ts] (the query and mutation
    handlers over the [podcasts] and [users] tables and the file storage)
    and of the [Discover] page component that groups podcasts per category.

    Conventions of the embedding:
    - a table is the list of its documents in creation order, which is the
      order in which [collect()] yields them; [order("desc")] reverses it;
    - document and storage identifiers are strings, as they are in Convex;
    - a JavaScript [number] is an integer-valued double, modelled by the
      integer of [Z] it denotes; a sum of two numbers is rounded to the
      nearest double as float64 addition does, so it is exact up to 2^53
      and no further;
    - a handler is a function of the caller's identity and of the store that
      either finishes with a value and a store, or throws, leaving the
      store as it was when the exception was raised; a mutation that writes
      before it may throw runs as a transaction, which undoes the writes. *)

From stdpp Require Import base option strings list gmap sorting.
From Stdlib Require Import ZArith Ascii.

Local Open Scope Z_scope.

(** ** Data model *)

Definition Id := string.

(** A document of the [podcasts] table. [imageUrl] may be absent (the page
    component declares it optional and supplies a default). *)
Record Podcast := mkPodcast {
  _id : Id;
  audioStorageId : Id;
  user : Id;
  podcastTitle : string;
  podcastDescription : string;
  audioUrl : string;
  imageUrl : option string;
  imageStorageId : Id;
  author : string;
  authorId : string;
  voicePrompt : string;
  imagePrompt : string;
  voiceType : string;
  categoryType : string;
  views : Z;
  authorImageUrl : string;
  audioDuration : Z
}.

(** A document of the [users] table. *)
Record User := mkUser {
  user_id : Id;
  clerkId : string;
  email : string;
  name : string;
  userImageUrl : string
}.

(** What the auth provider supplies about the caller. *)
Record UserIdentity := mkIdentity {
  identity_email : string
}.

(** The store a handler runs against: both tables and the file storage. *)
Record Store := mkStore {
  podcasts : list Podcast;
  users : list User;
  storage : gset Id
}.

#[global] Instance Podcast_eq_dec : EqDecision Podcast.
Proof. solve_decision. Defined.

#[global] Instance User_eq_dec : EqDecision User.
Proof. solve_decision. Defined.

(** The [PodcastUpdate] interface: every field is optional. *)
Module PodcastUpdate.
Record t := mk {
  podcastTitle : option string;
  podcastDescription : option string;
  audioUrl : option string;
  imageUrl : option string;
  voicePrompt : option string;
  imagePrompt : option string;
  voiceType : option string;
  categoryType : option string;
  views : option Z;
  audioDuration : option Z;
  audioStorageId : option Id;
  imageStorageId : option Id
}.
End PodcastUpdate.

(** ** Handlers: identity reader, store state, exceptions *)

Inductive ConvexError :=
  | UserNotAuthenticated   (* "User not authenticated" *)
  | UserNotFound           (* "User not found" *)
  | PodcastNotFound        (* "Podcast not found" *)
  | StoreError.            (* raised by the store itself *)

Inductive Outcome (A : Type) :=
  | Done (a : A) (s : Store)
  | Thrown (e : ConvexError) (s : Store).
Arguments Done {A} a s.
Arguments Thrown {A} e s.

Definition Handler (A : Type) := option UserIdentity → Store → Outcome A.

Definition ret {A} (a : A) : Handler A := λ _ s, Done a s.

Definition bind {A B} (m : Handler A) (k : A → Handler B) : Handler B :=
  λ who s, match m who s with
           | Done a s' => k a who s'
           | Thrown e s' => Thrown e s'
           end.

Definition throw {A} (e : ConvexError) : Handler A := λ _ s, Thrown e s.

Notation "'await' x <- m ; k" := (bind m (λ x, k))
  (at level 10, x name, m at level 100, k at level 200).
Notation "'perform' m ; k" := (bind m (λ _, k))
  (at level 10, m at level 100, k at level 200).

(** ** The record store adapter *)

(** [ctx.auth.getUserIdentity()] *)
Definition getUserIdentity : Handler (option UserIdentity) :=
  λ who s, Done who s.

(** The document of a table with a given identifier. *)
Fixpoint lookup_doc (id : Id) (tbl : list Podcast) : option Podcast :=
  match tbl with
  | [] => None
  | p :: tbl' => if decide (_id p = id) then Some p else lookup_doc id tbl'
  end.

(** Shallow merge of the fields present in a patch into a document. *)
Definition patch_fields (u : PodcastUpdate.t) (p : Podcast) : Podcast :=
  {| _id := _id p;
     audioStorageId := default (audioStorageId p) (PodcastUpdate.audioStorageId u);
     user := user p;
     podcastTitle := default (podcastTitle p) (PodcastUpdate.podcastTitle u);
     podcastDescription :=
       default (podcastDescription p) (PodcastUpdate.podcastDescription u);
     audioUrl := default (audioUrl p) (PodcastUpdate.audioUrl u);
     imageUrl := match PodcastUpdate.imageUrl u with
                 | Some url => Some url
                 | None => imageUrl p
                 end;
     imageStorageId := default (imageStorageId p) (PodcastUpdate.imageStorageId u);
     author := author p;
     authorId := authorId p;
     voicePrompt := default (voicePrompt p) (PodcastUpdate.voicePrompt u);
     imagePrompt := default (imagePrompt p) (PodcastUpdate.imagePrompt u);
     voiceType := default (voiceType p) (PodcastUpdate.voiceType u);
     categoryType := default (categoryType p) (PodcastUpdate.categoryType u);
     views := default (views p) (PodcastUpdate.views u);
     authorImageUrl := authorImageUrl p;
     audioDuration := default (audioDuration p) (PodcastUpdate.audioDuration u) |}.

Definition patch_doc (id : Id) (u : PodcastUpdate.t) (tbl : list Podcast)
  : list Podcast :=
  (λ p, if decide (_id p = id) then patch_fields u p else p) <$> tbl.

Definition delete_doc (id : Id) (tbl : list Podcast) : list Podcast :=
  filter (λ p, _id p ≠ id) tbl.

Definition set_podcasts (tbl : list Podcast) (s : Store) : Store :=
  {| podcasts := tbl; users := users s; storage := storage s |}.

Definition set_storage (fs : gset Id) (s : Store) : Store :=
  {| podcasts := podcasts s; users := users s; storage := fs |}.

(** [ctx.db.get(id)] *)
Definition db_get (id : Id) : Handler (option Podcast) :=
  λ _ s, Done (lookup_doc id (podcasts s)) s.

(** [ctx.db.patch(id, updates)]: the store refuses a missing document. *)
Definition db_patch (id : Id) (u : PodcastUpdate.t) : Handler unit :=
  λ _ s, match lookup_doc id (podcasts s) with
         | Some _ => Done () (set_podcasts (patch_doc id u (podcasts s)) s)
         | None => Thrown StoreError s
         end.

(** [ctx.db.delete(id)]: the store refuses a missing document. *)
Definition db_delete (id : Id) : Handler unit :=
  λ _ s, match lookup_doc id (podcasts s) with
         | Some _ => Done () (set_podcasts (delete_doc id (podcasts s)) s)
         | None => Thrown StoreError s
         end.

(** [ctx.storage.delete(storageId)]: the asset is gone afterwards; the
    storage service refuses a reference to a file it does not hold. *)
Definition storage_delete (sid : Id) : Handler unit :=
  λ _ s, if decide (sid ∈ storage s)
         then Done () (set_storage (storage s ∖ {[sid]}) s)
         else Thrown StoreError s.

(** [mutation({ handler })]: the handler runs as a transaction; when it
    throws, the writes it made are undone. Of the mutations below only
    [deletePodcast] writes before a call that may throw; the others throw
    before their first write, so that nothing is to be undone. *)
Definition mutation {A} (handler : Handler A) : Handler A :=
  λ who s, match handler who s with
           | Done a s' => Done a s'
           | Thrown e _ => Thrown e s
           end.

(** JavaScript truthiness of the values the handlers test. *)
Definition truthy_string (s : string) : bool :=
  match s with EmptyString => false | _ => true end.

Definition truthy_number (n : Z) : bool := negb (n =? 0).

(** The double nearest to an integer, ties to the even significand: the
    integers up to 2^53 in magnitude are doubles, the larger ones keep their
    53 leading bits. *)
Definition round_to_double (z : Z) : Z :=
  let m := Z.abs z in
  if m <? 2 ^ 53 then z
  else
    let e := Z.log2 m - 52 in
    let q := m / 2 ^ e in
    let r := m mod 2 ^ e in
    let half := 2 ^ (e - 1) in
    let q' := if r <? half then q
              else if half <? r then q + 1
              else if Z.even q then q else q + 1 in
    Z.sgn z * (q' * 2 ^ e).

Definition is_double (z : Z) : bool := round_to_double z =? z.

(** [a + b] on numbers: the float64 sum of two doubles. Every stored number
    is a double; on integers that are not, the sum is left as it is. *)
Definition js_add (a b : Z) : Z :=
  if is_double a && is_double b then round_to_double (a + b) else a + b.

Arguments round_to_double : simpl never.
Arguments js_add : simpl never.

(** [a || b] on strings. *)
Definition js_or (a b : string) : string := if truthy_string a then a else b.

(** ** Mutations *)

Module UpdatePodcastArgs.
Record t := mk {
  podcastId : Id;
  podcastTitle : string;
  podcastDescription : string;
  audioUrl : string;
  imageUrl : string;
  voicePrompt : string;
  imagePrompt : string;
  voiceType : string;
  categoryType : string;
  views : Z;
  audioDuration : Z;
  audioStorageId : Id;
  imageStorageId : Id
}.
End UpdatePodcastArgs.

(** The [updates] object [updatePodcast] assembles from its arguments.
    [args.views !== undefined] always holds: the argument is required. *)
Definition updates_of_args (args : UpdatePodcastArgs.t) : PodcastUpdate.t :=
  let keep (s : string) := if truthy_string s then Some s else None in
  {| PodcastUpdate.podcastTitle := keep (UpdatePodcastArgs.podcastTitle args);
     PodcastUpdate.podcastDescription :=
       keep (UpdatePodcastArgs.podcastDescription args);
     PodcastUpdate.audioUrl := keep (UpdatePodcastArgs.audioUrl args);
     PodcastUpdate.imageUrl := keep (UpdatePodcastArgs.imageUrl args);
     PodcastUpdate.voicePrompt := keep (UpdatePodcastArgs.voicePrompt args);
     PodcastUpdate.imagePrompt := keep (UpdatePodcastArgs.imagePrompt args);
     PodcastUpdate.voiceType := keep (UpdatePodcastArgs.voiceType args);
     PodcastUpdate.categoryType := keep (UpdatePodcastArgs.categoryType args);
     PodcastUpdate.views := Some (UpdatePodcastArgs.views args);
     PodcastUpdate.audioDuration :=
       if truthy_number (UpdatePodcastArgs.audioDuration args)
       then Some (UpdatePodcastArgs.audioDuration args) else None;
     PodcastUpdate.audioStorageId := Some (UpdatePodcastArgs.audioStorageId args);
     PodcastUpdate.imageStorageId := Some (UpdatePodcastArgs.imageStorageId args) |}.

Definition updatePodcast (args : UpdatePodcastArgs.t) : Handler unit :=
  await identity <- getUserIdentity;
  match identity with
  | None => throw UserNotAuthenticated
  | Some _ =>
      await podcast <- db_get (UpdatePodcastArgs.podcastId args);
      match podcast with
      | None => throw PodcastNotFound
      | Some _ =>
          db_patch (UpdatePodcastArgs.podcastId args) (updates_of_args args)
      end
  end.

(** The patch [{ views: n }]. *)
Definition views_patch (n : Z) : PodcastUpdate.t :=
  {| PodcastUpdate.podcastTitle := None;
     PodcastUpdate.podcastDescription := None;
     PodcastUpdate.audioUrl := None;
     PodcastUpdate.imageUrl := None;
     PodcastUpdate.voicePrompt := None;
     PodcastUpdate.imagePrompt := None;
     PodcastUpdate.voiceType := None;
     PodcastUpdate.categoryType := None;
     PodcastUpdate.views := Some n;
     PodcastUpdate.audioDuration := None;
     PodcastUpdate.audioStorageId := None;
     PodcastUpdate.imageStorageId := None |}.

Definition updatePodcastViews (podcastId : Id) : Handler unit :=
  await podcast <- db_get podcastId;
  match podcast with
  | None => throw PodcastNotFound
  | Some podcast => db_patch podcastId (views_patch (js_add (views podcast) 1))
  end.

Definition deletePodcast (podcastId imageStorageId audioStorageId : Id)
  : Handler unit :=
  mutation (
    await podcast <- db_get podcastId;
    match podcast with
    | None => throw PodcastNotFound
    | Some _ =>
        perform storage_delete imageStorageId;
        perform storage_delete audioStorageId;
        db_delete podcastId
    end).

(** [ctx.db.query("users").filter(q => q.eq(q.field("email"), email)).collect()] *)
Definition users_by_email (address : string) : Handler (list User) :=
  λ _ s, Done (filter (λ u, email u = address) (users s)) s.

(** [ctx.db.insert("podcasts", fields)]: the store gives the new document
    an identifier of its own, [newId], puts it after the documents the
    table already has and returns the identifier. *)
Definition db_insert (newId : Id) (fields : Id → Podcast) : Handler Id :=
  λ _ s, Done newId (set_podcasts (podcasts s ++ [fields newId]) s).

Module CreatePodcastArgs.
Record t := mk {
  audioStorageId : Id;
  podcastTitle : string;
  podcastDescription : string;
  audioUrl : string;
  imageUrl : string;
  imageStorageId : Id;
  voicePrompt : string;
  imagePrompt : string;
  voiceType : string;
  categoryType : string;
  views : Z;
  audioDuration : Z
}.
End CreatePodcastArgs.

(** The document [createPodcast] inserts for the user [owner]. *)
Definition new_podcast (args : CreatePodcastArgs.t) (owner : User) (id : Id)
  : Podcast :=
  {| _id := id;
     audioStorageId := CreatePodcastArgs.audioStorageId args;
     user := user_id owner;
     podcastTitle := CreatePodcastArgs.podcastTitle args;
     podcastDescription := CreatePodcastArgs.podcastDescription args;
     audioUrl := CreatePodcastArgs.audioUrl args;
     imageUrl := Some (CreatePodcastArgs.imageUrl args);
     imageStorageId := CreatePodcastArgs.imageStorageId args;
     author := name owner;
     authorId := clerkId owner;
     voicePrompt := CreatePodcastArgs.voicePrompt args;
     imagePrompt := CreatePodcastArgs.imagePrompt args;
     voiceType := CreatePodcastArgs.voiceType args;
     categoryType := CreatePodcastArgs.categoryType args;
     views := CreatePodcastArgs.views args;
     authorImageUrl := userImageUrl owner;
     audioDuration := CreatePodcastArgs.audioDuration args |}.

(** [newId] is the identifier the store allots to the inserted document. *)
Definition createPodcast (newId : Id) (args : CreatePodcastArgs.t) : Handler Id :=
  await identity <- getUserIdentity;
  match identity with
  | None => throw UserNotAuthenticated
  | Some identity =>
      await user <- users_by_email (identity_email identity);
      match user with
      | [] => throw UserNotFound
      | owner :: _ => db_insert newId (new_podcast args owner)
      end
  end.

(** A handler run [n] times in a row, stopping at the first exception. *)
Fixpoint repeatedly (n : nat) (h : Handler unit) : Handler unit :=
  match n with
  | O => ret ()
  | S n' => perform h; repeatedly n' h
  end.

(** ** Queries *)

Definition getPodcastById (podcastId : Id) (s : Store) : option Podcast :=
  lookup_doc podcastId (podcasts s).

Definition getAllPodcasts (s : Store) : list Podcast := reverse (podcasts s).

(** The filter compares the stored [voiceType] with [podcast?.voiceType],
    which is undefined when the queried podcast does not exist. *)
Definition getPodcastByVoiceType (podcastId : Id) (s : Store) : list Podcast :=
  let podcast := lookup_doc podcastId (podcasts s) in
  filter (λ p, Some (voiceType p) = voiceType <$> podcast ∧ _id p ≠ podcastId)
         (podcasts s).

Definition getPodcastByCategoryType (category : string) (s : Store)
  : list Podcast :=
  filter (λ p, categoryType p = category) (podcasts s).

(** [Array.prototype.sort] with a comparator: a stable sort, written as the
    insertion of every element, from the last one to the first, in front of
    the first element it does not have to follow. *)
Section js_sort.
Context {A : Type} (cmp : A → A → Z).

Fixpoint sort_insert (x : A) (l : list A) : list A :=
  match l with
  | [] => [x]
  | y :: l' => if cmp x y <=? 0 then x :: l else y :: sort_insert x l'
  end.

Definition js_sort (l : list A) : list A := foldr sort_insert [] l.
End js_sort.

Definition by_views_desc (a b : Podcast) : Z := views b - views a.

Definition getTrendingPodcasts (s : Store) : list Podcast :=
  take 8 (js_sort by_views_desc (podcasts s)).

Module AuthorStats.
Record t := mk { podcasts : list Podcast; listeners : Z }.
End AuthorStats.

Definition getPodcastByAuthorId (author : string) (s : Store) : AuthorStats.t :=
  let found := filter (λ p, authorId p = author) (podcasts s) in
  {| AuthorStats.podcasts := found;
     AuthorStats.listeners :=
       foldl (λ sum podcast, js_add sum (views podcast)) 0 found |}.

(** The caller's own podcasts: the user is looked up by the e-mail of the
    identity, and the podcasts are those whose [user] field is its id. *)
Definition getUserPodcasts : Handler (list Podcast) :=
  await identity <- getUserIdentity;
  match identity with
  | None => throw UserNotAuthenticated
  | Some identity =>
      λ _ s,
        match filter (λ u, email u = identity_email identity) (users s) with
        | [] => Thrown UserNotFound s
        | u :: _ => Done (filter (λ p, user p = user_id u) (podcasts s)) s
        end
  end.

(** The search resolver. The hosted full-text index is a collaborator: for
    an index name, a field and a term it yields the matching documents of
    the table in relevance order. *)
Section search.
Variable full_text_search : string → string → string → list Podcast → list Podcast.

Definition withSearchIndex (index field term : string) (s : Store)
  : list Podcast :=
  full_text_search index field term (podcasts s).

Definition getPodcastBySearch (search : string) (s : Store) : list Podcast :=
  if decide (search = "") then reverse (podcasts s)
  else
    let authorSearch :=
      take 10 (withSearchIndex "search_author" "author" search s) in
    if bool_decide (0 < length authorSearch)%nat then authorSearch
    else
      let titleSearch :=
        take 10 (withSearchIndex "search_title" "podcastTitle" search s) in
      if bool_decide (0 < length titleSearch)%nat then titleSearch
      else
        take 10 (withSearchIndex "search_body"
                   (js_or "podcastDescription" "podcastTitle") search s).
End search.

(** ** The Discover page *)

Definition podcastCategories : list string :=
  ["business"; "technology"; "comedy"; "education"; "hobbies";
   "government"; "mental health"; "family"; "music"; "politics";
   "spirituality"; "culture"; "arts"].

(** Case conversion, on the ASCII letters. *)
Definition toUpperCase (c : ascii) : ascii :=
  let n := nat_of_ascii c in
  if ((97 <=? n) && (n <=? 122))%nat then ascii_of_nat (n - 32) else c.

Definition toLowerCase (c : ascii) : ascii :=
  let n := nat_of_ascii c in
  if ((65 <=? n) && (n <=? 90))%nat then ascii_of_nat (n + 32) else c.

Fixpoint string_map (f : ascii → ascii) (s : string) : string :=
  match s with
  | EmptyString => EmptyString
  | String c s' => String (f c) (string_map f s')
  end.

Definition capitalize (str : string) : string :=
  match str with
  | EmptyString => str
  | String c rest => String (toUpperCase c) (string_map toLowerCase rest)
  end.

(** [{ ...podcast, imageUrl: podcast.imageUrl || '' }] *)
Definition with_image_default (p : Podcast) : Podcast :=
  {| _id := _id p;
     audioStorageId := audioStorageId p;
     user := user p;
     podcastTitle := podcastTitle p;
     podcastDescription := podcastDescription p;
     audioUrl := audioUrl p;
     imageUrl := Some (js_or (default "" (imageUrl p)) "");
     imageStorageId := imageStorageId p;
     author := author p;
     authorId := authorId p;
     voicePrompt := voicePrompt p;
     imagePrompt := imagePrompt p;
     voiceType := voiceType p;
     categoryType := categoryType p;
     views := views p;
     authorImageUrl := authorImageUrl p;
     audioDuration := audioDuration p |}.

(** The effect of the page: one category query per label, in the order of
    the labels, each result stored under its label. *)
Definition fetchCategoryPodcasts (s : Store) : gmap string (list Podcast) :=
  foldl (λ categoriesData category,
           <[category := with_image_default <$> getPodcastByCategoryType category s]>
             categoriesData)
        ∅ podcastCategories.

Record PodcastCard := mkCard {
  card_key : Id;
  imgUrl : option string;
  title : string;
  description : string;
  podcastId : Id
}.

Record CategorySection := mkSection {
  section_key : string;
  heading : string;
  cards : list PodcastCard
}.

Inductive View :=
  | LoaderSpinner
  | Page (trending : list PodcastCard) (sections : list CategorySection).

Definition card (p : Podcast) : PodcastCard :=
  {| card_key := _id p;
     imgUrl := imageUrl p;
     title := podcastTitle p;
     description := podcastDescription p;
     podcastId := _id p |}.

(** [categoryPodcasts[categoryType]?.length > 0 && <section .../>]: what is
    rendered for one label, nothing when the test fails. *)
Definition category_section (categoryPodcasts : gmap string (list Podcast))
    (category : string) : option CategorySection :=
  match categoryPodcasts !! category with
  | Some found =>
      if bool_decide (0 < length found)%nat
      then Some {| section_key := category;
                   heading := capitalize category +:+ " Podcasts";
                   cards := card <$> found |}
      else None
  | None => None
  end.

(** What the component renders from its two pieces of state: the result of
    the trending query (absent while it loads) and the category mapping. *)
Definition Discover (trendingPodcasts : option (list Podcast))
    (categoryPodcasts : gmap string (list Podcast)) : View :=
  match trendingPodcasts with
  | None => LoaderSpinner
  | Some trendingPodcasts =>
      if existsb (λ category, bool_decide (categoryPodcasts !! category = None))
                 podcastCategories
      then LoaderSpinner
      else Page (card <$> trendingPodcasts)
                (omap (category_section categoryPodcasts) podcastCategories)
  end.

(** The page once both the trending query and the category effect are done. *)
Definition Discover_loaded (s : Store) : View :=
  Discover (Some (getTrendingPodcasts s)) (fetchCategoryPodcasts s).

(** ** A small catalogue used to exercise the handlers *)

Definition alice : User := mkUser "u1" "clerk_alice" "alice@example.org" "Alice" "".
Definition bob : User := mkUser "u2" "clerk_bob" "bob@example.org" "Bob" "".

Definition as_alice : option UserIdentity := Some (mkIdentity "alice@example.org").
Definition as_bob : option UserIdentity := Some (mkIdentity "bob@example.org").

Definition episode (id : Id) (owner : User) (called : string) (voice category : string)
    (seen : Z) : Podcast :=
  {| _id := id;
     audioStorageId := "aud_" +:+ id;
     user := user_id owner;
     podcastTitle := called;
     podcastDescription := "about " +:+ called;
     audioUrl := "https://files/aud_" +:+ id;
     imageUrl := Some ("https://files/img_" +:+ id);
     imageStorageId := "img_" +:+ id;
     author := name owner;
     authorId := clerkId owner;
     voicePrompt := "hello";
     imagePrompt := "a cover";
     voiceType := voice;
     categoryType := category;
     views := seen;
     authorImageUrl := userImageUrl owner;
     audioDuration := 60 |}.

Definition p1 : Podcast := episode "p1" alice "Rocq weekly" "alloy" "technology" 3.
Definition p2 : Podcast := episode "p2" bob "Jokes" "alloy" "comedy" 5.
Definition p3 : Podcast := episode "p3" alice "Proof talk" "onyx" "technology" 0.
Definition p4 : Podcast := episode "p4" alice "Types" "alloy" "education" 7.

Definition catalogue : Store :=
  {| podcasts := [p1; p2; p3; p4];
     users := [alice; bob];
     storage := {["img_p1"; "aud_p1"; "img_p2"; "aud_p2";
                  "img_p3"; "aud_p3"; "img_p4"; "aud_p4"]} |}.

(** Ten podcasts, more than the trending section shows; two of them tie. *)
Definition crowded : Store :=
  {| podcasts :=
       (λ '(id, seen), episode id bob id "echo" "music" seen)
         <$> [("e0", 1); ("e1", 9); ("e2", 3); ("e3", 9); ("e4", 0);
              ("e5", 4); ("e6", 7); ("e7", 2); ("e8", 8); ("e9", 5)];
     users := [alice; bob];
     storage := ∅ |}.

(** An update of [p1] that supplies a new title, a falsy description and
    duration, and a view counter of zero. *)
Definition retitle_p1 : UpdatePodcastArgs.t :=
  {| UpdatePodcastArgs.podcastId := "p1";
     UpdatePodcastArgs.podcastTitle := "Rocq daily";
     UpdatePodcastArgs.podcastDescription := "";
     UpdatePodcastArgs.audioUrl := "";
     UpdatePodcastArgs.imageUrl := "https://files/new";
     UpdatePodcastArgs.voicePrompt := "";
     UpdatePodcastArgs.imagePrompt := "";
     UpdatePodcastArgs.voiceType := "";
     UpdatePodcastArgs.categoryType := "";
     UpdatePodcastArgs.views := 0;
     UpdatePodcastArgs.audioDuration := 0;
     UpdatePodcastArgs.audioStorageId := "aud_new";
     UpdatePodcastArgs.imageStorageId := "img_new" |}.

(** What Bob submits for a new episode. *)
Definition new_episode : CreatePodcastArgs.t :=
  {| CreatePodcastArgs.audioStorageId := "aud_p5";
     CreatePodcastArgs.podcastTitle := "Puns";
     CreatePodcastArgs.podcastDescription := "more jokes";
     CreatePodcastArgs.audioUrl := "https://files/aud_p5";
     CreatePodcastArgs.imageUrl := "https://files/img_p5";
     CreatePodcastArgs.imageStorageId := "img_p5";
     CreatePodcastArgs.voicePrompt := "hi";
     CreatePodcastArgs.imagePrompt := "a clown";
     CreatePodcastArgs.voiceType := "alloy";
     CreatePodcastArgs.categoryType := "comedy";
     CreatePodcastArgs.views := 0;
     CreatePodcastArgs.audioDuration := 42 |}.

(** A caller the auth provider knows but the [users] table does not. *)
Definition as_carol : option UserIdentity := Some (mkIdentity "carol@example.org").

(** A table with a podcast filed under a capitalised label. *)
Definition p9 : Podcast := episode "p9" alice "Capital" "alloy" "Technology" 1.

Definition mislabelled : Store :=
  {| podcasts := [p1; p9]; users := [alice; bob]; storage := ∅ |}.

(** A table whose first podcast has reached 2^53 views, the last integer
    before the doubles thin out; its author has two more podcasts with one
    view each. *)
Definition saturated : Store :=
  {| podcasts := [episode "p1" alice "Rocq weekly" "alloy" "technology" (2 ^ 53);
                  episode "p3" alice "Proof talk" "onyx" "technology" 1;
                  episode "p4" alice "Types" "alloy" "education" 1];
     users := [alice; bob];
     storage := ∅ |}.

(** The catalogue once the files of a new episode are uploaded. *)
Definition uploaded : Store :=
  set_storage (storage catalogue ∪ {["img_p5"; "aud_p5"]}) catalogue.

(** Two users with the same e-mail, each with a podcast. *)
Definition alice_again : User :=
  mkUser "u7" "clerk_alice2" "alice@example.org" "Alice B" "".

Definition p7 : Podcast := episode "p7" alice_again "Second" "alloy" "music" 2.

Definition twins : Store :=
  {| podcasts := [p1; p7]; users := [alice; alice_again]; storage := ∅ |}.

(** A stand-in for the hosted index: the documents whose field is the term. *)
Definition exact_match_index (index field term : string) (tbl : list Podcast)
  : list Podcast :=
  filter (λ p, (if decide (field = "author") then author p
                else if decide (field = "podcastTitle") then podcastTitle p
                else podcastDescription p) = term) tbl.

(** ** Properties the theorems are stated with *)

(** Two documents that agree on every field but [views]. *)
Definition same_except_views (p p' : Podcast) : Prop :=
  _id p' = _id p ∧ audioStorageId p' = audioStorageId p ∧ user p' = user p ∧
  podcastTitle p' = podcastTitle p ∧
  podcastDescription p' = podcastDescription p ∧
  audioUrl p' = audioUrl p ∧ imageUrl p' = imageUrl p ∧
  imageStorageId p' = imageStorageId p ∧ author p' = author p ∧
  authorId p' = authorId p ∧ voicePrompt p' = voicePrompt p ∧
  imagePrompt p' = imagePrompt p ∧ voiceType p' = voiceType p ∧
  categoryType p' = categoryType p ∧ authorImageUrl p' = authorImageUrl p ∧
  audioDuration p' = audioDuration p.

(** A handler call that ran to completion. *)
Definition succeeds {A} (o : Outcome A) : Prop :=
  match o with Done _ _ => True | Thrown _ _ => False end.

(** Deleting an existing podcast removes the image and the audio asset the
    document itself refers to, and the document. *)
Definition delete_cascades_own_assets (who : option UserIdentity) (s : Store)
    (id img aud : Id) : Prop :=
  ∀ p, getPodcastById id s = Some p →
    ∃ s', deletePodcast id img aud who s = Done () s' ∧
          (imageStorageId p ∉ storage s') ∧ (audioStorageId p ∉ storage s') ∧
          getPodcastById id s' = None.

(** The podcasts of the caller are those [getUserPodcasts] lists. *)
Definition owned_by (who : option UserIdentity) (s : Store) (p : Podcast) : Prop :=
  match getUserPodcasts who s with
  | Done mine _ => p ∈ mine
  | Thrown _ _ => False
  end.

(** Owner-only mutation: no identity is answered by the authentication
    error, and a caller who does not own the podcast does not succeed. *)
Definition owner_only {A} (run : Handler A) (id : Id)
    (who : option UserIdentity) (s : Store) : Prop :=
  (who = None → run who s = Thrown UserNotAuthenticated s) ∧
  (∀ p, getPodcastById id s = Some p → ¬ owned_by who s p →
        ¬ succeeds (run who s)).

(** The three bounded lookups of the search resolver. *)
Section lookups.
Variable full_text_search : string → string → string → list Podcast → list Podcast.

Definition author_matches (term : string) (s : Store) : list Podcast :=
  take 10 (withSearchIndex full_text_search "search_author" "author" term s).

Definition title_matches (term : string) (s : Store) : list Podcast :=
  take 10 (withSearchIndex full_text_search "search_title" "podcastTitle" term s).

Definition description_matches (term : string) (s : Store) : list Podcast :=
  take 10 (withSearchIndex full_text_search "search_body" "podcastDescription"
             term s).
End lookups.

(** The arithmetic sum of the view counters of a list of documents. *)
Definition sum_views (l : list Podcast) : Z := foldr Z.add 0 (views <$> l).

(** A view increment of an existing podcast leaves its counter one higher. *)
Definition increments_by_one (who : option UserIdentity) (s : Store) (id : Id)
  : Prop :=
  ∀ p, getPodcastById id s = Some p →
    ∃ s' p', updatePodcastViews id who s = Done () s' ∧
             getPodcastById id s' = Some p' ∧ views p' = views p + 1.

(** The listener total of an author is the arithmetic sum of the views of
    the author's podcasts. *)
Definition total_is_arithmetic_sum (a : string) (s : Store) : Prop :=
  AuthorStats.listeners (getPodcastByAuthorId a s)
    = sum_views (AuthorStats.podcasts (getPodcastByAuthorId a s)).

(** Descending order on the view counter. *)
Definition views_desc (a b : Podcast) : Prop := views b ≤ views a.

(** No two documents of the table share an identifier. *)
Definition unique_ids (s : Store) : Prop := NoDup (_id <$> podcasts s).

(** A string of ASCII characters, on which the case conversions of the
    model are those of JavaScript. *)
Fixpoint ascii_only (s : string) : bool :=
  match s with
  | EmptyString => true
  | String c s' => (nat_of_ascii c <? 128)%nat && ascii_only s'
  end.

(** The sections of a rendered page; the spinner has none. *)
Definition sections_of (v : View) : list CategorySection :=
  match v with
  | LoaderSpinner => []
  | Page _ sections => sections
  end.

(** ** The record store: lookups after a patch or a delete *)

Lemma lookup_doc_Some id tbl p :
  lookup_doc id tbl = Some p → p ∈ tbl ∧ _id p = id.
Proof.
  induction tbl as [|q tbl IH]; simpl; [done|].
  destruct (decide (_id q = id)) as [Heq|Hne].
  - intros [= ->]. split; [left | done].
  - intros H. destruct (IH H) as [Hin Hid]. split; [by right | done].
Qed.

Lemma lookup_doc_None id tbl :
  lookup_doc id tbl = None ↔ ∀ p, p ∈ tbl → _id p ≠ id.
Proof.
  induction tbl as [|q tbl IH]; simpl.
  - split; [intros _ p Hp; by apply not_elem_of_nil in Hp | done].
  - destruct (decide (_id q = id)) as [Heq|Hne].
    + split; [done|]. intros H. exfalso. apply (H q); [left | done].
    + rewrite IH. split.
      * intros H p Hp. apply elem_of_cons in Hp as [->|Hp]; auto.
      * intros H p Hp. apply H. by right.
Qed.

Lemma patch_fields_id u p : _id (patch_fields u p) = _id p.
Proof. done. Qed.

Lemma lookup_doc_patch id u tbl :
  lookup_doc id (patch_doc id u tbl) = patch_fields u <$> lookup_doc id tbl.
Proof.
  unfold patch_doc. induction tbl as [|q tbl IH]; simpl; [done|].
  destruct (decide (_id q = id)) as [Heq|Hne].
  - rewrite patch_fields_id. by rewrite decide_True.
  - by rewrite decide_False.
Qed.

Lemma lookup_doc_patch_ne id id' u tbl :
  id' ≠ id → lookup_doc id' (patch_doc id u tbl) = lookup_doc id' tbl.
Proof.
  intros Hne. unfold patch_doc. induction tbl as [|q tbl IH]; simpl; [done|].
  destruct (decide (_id q = id)) as [Heq|Hq].
  - rewrite patch_fields_id.
    destruct (decide (_id q = id')) as [Heq'|_]; [congruence | done].
  - destruct (decide (_id q = id')); [done | apply IH].
Qed.

Lemma lookup_doc_delete id tbl : lookup_doc id (delete_doc id tbl) = None.
Proof.
  apply lookup_doc_None. intros p Hp.
  unfold delete_doc in Hp. by apply list_elem_of_filter in Hp as [Hp _].
Qed.

Lemma lookup_doc_delete_ne id id' tbl :
  id' ≠ id → lookup_doc id' (delete_doc id tbl) = lookup_doc id' tbl.
Proof.
  intros Hne. unfold delete_doc. induction tbl as [|q tbl IH]; simpl; [done|].
  rewrite filter_cons. destruct (decide (_id q ≠ id)) as [Hq|Hq]; simpl.
  - by rewrite IH.
  - destruct (decide (_id q = id')) as [Heq|_]; [|done].
    exfalso. apply Hq. congruence.
Qed.

(** ** Numbers *)

Lemma round_to_double_exact z : Z.abs z ≤ 2 ^ 53 → round_to_double z = z.
Proof.
  intros Hz. unfold round_to_double.
  destruct (Z.abs z <? 2 ^ 53) eqn:Hsmall; [done|].
  apply Z.ltb_ge in Hsmall.
  assert (Habs : Z.abs z = 2 ^ 53) by lia.
  destruct (Z.abs_eq_or_opp z) as [Hz'|Hz']; rewrite Hz' in Habs.
  - by rewrite Habs.
  - assert (z = - 2 ^ 53) as -> by lia. done.
Qed.

Lemma js_add_exact a b : Z.abs (a + b) ≤ 2 ^ 53 → js_add a b = a + b.
Proof.
  intros Hsum. unfold js_add.
  destruct (is_double a && is_double b); [|done].
  by apply round_to_double_exact.
Qed.

(** What rounding does to a large positive integer: it keeps a multiple of
    the spacing [2 ^ e] that is no less than the multiple just below. *)
Lemma round_to_double_large z :
  2 ^ 53 ≤ z →
  ∃ q', z / 2 ^ (Z.log2 z - 52) ≤ q' ∧
        round_to_double z = q' * 2 ^ (Z.log2 z - 52).
Proof.
  intros Hz. unfold round_to_double.
  rewrite (Z.abs_eq z) by lia.
  rewrite (proj2 (Z.ltb_ge z (2 ^ 53))) by done.
  rewrite (Z.sgn_pos z) by lia.
  set (e := Z.log2 z - 52). set (q := z / 2 ^ e).
  destruct (z mod 2 ^ e <? 2 ^ (e - 1)); [exists q; lia|].
  destruct (2 ^ (e - 1) <? z mod 2 ^ e); [exists (q + 1); lia|].
  destruct (Z.even q); [exists q | exists (q + 1)]; lia.
Qed.

Lemma log2_large z : 2 ^ 53 ≤ z → 53 ≤ Z.log2 z.
Proof.
  intros Hz. change 53 with (Z.log2 (2 ^ 53)). by apply Z.log2_le_mono.
Qed.

Lemma round_to_double_floor z :
  2 ^ 53 ≤ z →
  2 ^ Z.log2 z ≤ z / 2 ^ (Z.log2 z - 52) * 2 ^ (Z.log2 z - 52).
Proof.
  intros Hz. pose proof (log2_large z Hz) as Hlog.
  assert (Hpos : 0 < z) by lia.
  destruct (Z.log2_spec z Hpos) as [Hlow _].
  set (e := Z.log2 z - 52) in *.
  assert (He : 0 < 2 ^ e) by (apply Z.pow_pos_nonneg; lia).
  assert (Hsplit : 2 ^ Z.log2 z = 2 ^ 52 * 2 ^ e).
  { rewrite <- Z.pow_add_r by lia. f_equal. lia. }
  rewrite Hsplit in *.
  assert (2 ^ 52 ≤ z / 2 ^ e) by (apply Z.div_le_lower_bound; lia).
  nia.
Qed.

(** A sum of non-negative doubles is rounded to a double that is no less
    than either of them. *)
Lemma round_to_double_above a z :
  0 ≤ a → a ≤ z → round_to_double a = a → a ≤ round_to_double z.
Proof.
  intros Ha Haz Hdouble.
  destruct (decide (z < 2 ^ 53)) as [Hsmall|Hlarge].
  { rewrite round_to_double_exact by lia. done. }
  assert (Hz : 2 ^ 53 ≤ z) by lia.
  destruct (round_to_double_large z Hz) as (q' & Hq' & ->).
  pose proof (round_to_double_floor z Hz) as Hfloor.
  pose proof (log2_large z Hz) as Hlog.
  set (e := Z.log2 z - 52) in *.
  assert (He : 0 < 2 ^ e) by (apply Z.pow_pos_nonneg; lia).
  assert (Hdown : z / 2 ^ e * 2 ^ e ≤ q' * 2 ^ e) by nia.
  destruct (decide (a < 2 ^ Z.log2 z)) as [Hbelow|Hsame]; [lia|].
  assert (Hpos : 0 < a).
  { assert (0 < 2 ^ Z.log2 z) by (apply Z.pow_pos_nonneg; lia). lia. }
  assert (Hloga : Z.log2 a = Z.log2 z).
  { apply Z.le_antisymm; [by apply Z.log2_le_mono|].
    apply Z.log2_le_pow2; lia. }
  assert (Ha53 : 2 ^ 53 ≤ a).
  { assert (2 ^ 53 ≤ 2 ^ Z.log2 z) by (apply Z.pow_le_mono_r; lia). lia. }
  destruct (round_to_double_large a Ha53) as (qa & _ & Hround).
  rewrite Hdouble, Hloga in Hround. fold e in Hround.
  assert (a / 2 ^ e = qa) as <-.
  { rewrite Hround. by rewrite Z.div_mul by lia. }
  assert (a / 2 ^ e ≤ z / 2 ^ e) by (apply Z.div_le_mono; lia).
  nia.
Qed.

Lemma js_add_above a b :
  0 ≤ a → 0 ≤ b → a ≤ js_add a b ∧ b ≤ js_add a b.
Proof.
  intros Ha Hb. unfold js_add, is_double.
  destruct (round_to_double a =? a) eqn:Hda; simpl; [|lia].
  destruct (round_to_double b =? b) eqn:Hdb; simpl; [|lia].
  apply Z.eqb_eq in Hda, Hdb.
  split; apply round_to_double_above; try done; lia.
Qed.

Example js_add_at_2_53 :
  js_add (2 ^ 53) 1 = 2 ^ 53 ∧ js_add (2 ^ 53 - 1) 1 = 2 ^ 53 ∧
  js_add (2 ^ 53 + 2) 1 = 2 ^ 53 + 4 ∧ js_add 5 1 = 6.
Proof. by vm_compute. Qed.

(** ** The handlers, step by step *)

Lemma updatePodcastViews_found who s id p :
  lookup_doc id (podcasts s) = Some p →
  updatePodcastViews id who s =
    Done () (set_podcasts
               (patch_doc id (views_patch (js_add (views p) 1)) (podcasts s)) s).
Proof.
  intros H. unfold updatePodcastViews, bind, db_get, db_patch. by rewrite H, H.
Qed.

Lemma updatePodcastViews_missing who s id :
  lookup_doc id (podcasts s) = None →
  updatePodcastViews id who s = Thrown PodcastNotFound s.
Proof.
  intros H. unfold updatePodcastViews, bind, db_get, throw. by rewrite H.
Qed.

Lemma deletePodcast_found who s id img aud p :
  lookup_doc id (podcasts s) = Some p →
  img ∈ storage s → aud ∈ storage s → img ≠ aud →
  deletePodcast id img aud who s =
    Done () {| podcasts := delete_doc id (podcasts s);
               users := users s;
               storage := storage s ∖ {[img]} ∖ {[aud]} |}.
Proof.
  intros H Himg Haud Hne.
  unfold deletePodcast, mutation, bind, db_get, storage_delete, db_delete.
  rewrite H. rewrite decide_True by done. simpl.
  rewrite decide_True; [simpl; by rewrite H|].
  apply elem_of_difference. split; [done|].
  intros Hsame%elem_of_singleton. by apply Hne.
Qed.

Lemma deletePodcast_refused who s id img aud p :
  lookup_doc id (podcasts s) = Some p →
  img ∉ storage s ∨ aud ∉ storage s ∨ img = aud →
  deletePodcast id img aud who s = Thrown StoreError s.
Proof.
  intros H Hbad.
  unfold deletePodcast, mutation, bind, db_get, storage_delete, db_delete.
  rewrite H. destruct (decide (img ∈ storage s)) as [Himg|Himg]; [|done].
  simpl. rewrite decide_False; [done|].
  intros [Haud Hne]%elem_of_difference.
  destruct Hbad as [Hbad|[Hbad|Hbad]]; [done | done |].
  apply Hne. by apply elem_of_singleton.
Qed.

Lemma deletePodcast_missing who s id img aud :
  lookup_doc id (podcasts s) = None →
  deletePodcast id img aud who s = Thrown PodcastNotFound s.
Proof.
  intros H. unfold deletePodcast, mutation, bind, db_get, throw. by rewrite H.
Qed.

Lemma updatePodcast_found ident s args p :
  lookup_doc (UpdatePodcastArgs.podcastId args) (podcasts s) = Some p →
  updatePodcast args (Some ident) s =
    Done () (set_podcasts
               (patch_doc (UpdatePodcastArgs.podcastId args) (updates_of_args args)
                          (podcasts s)) s).
Proof.
  intros H. unfold updatePodcast, bind, getUserIdentity, db_get, db_patch.
  by rewrite H, H.
Qed.

(** ** View increment *)

(** At 2^53 views the float64 sum [views + 1] is 2^53 again: the increment
    of the first podcast of [saturated] succeeds and leaves its counter
    where it was. *)
Lemma increments_by_one_fails : ¬ increments_by_one None saturated "p1".
Proof.
  intros H. destruct (H _ eq_refl) as (s' & p' & Hrun & Hget & Hviews).
  injection Hrun as <-. injection Hget as <-. by vm_compute in Hviews.
Qed.

(** C3, as the handler has it: incrementing the views of an existing
    podcast whose counter [v] is an integer from -2^53 to 2^53 - 1 leaves it
    at [v + 1]; on an identifier with no document the handler throws
    "Podcast not found" and the store is the one it was given. *)
Theorem updatePodcastViews_increments who s id :
  (∀ p, getPodcastById id s = Some p →
     - 2 ^ 53 ≤ views p < 2 ^ 53 →
     ∃ s' p', updatePodcastViews id who s = Done () s' ∧
              getPodcastById id s' = Some p' ∧ views p' = views p + 1) ∧
  (getPodcastById id s = None →
     updatePodcastViews id who s = Thrown PodcastNotFound s).
Proof.
  unfold getPodcastById. split.
  - intros p Hp Hrange.
    eexists _, (patch_fields (views_patch (js_add (views p) 1)) p).
    split; [by apply updatePodcastViews_found|].
    split; [|simpl; apply js_add_exact; lia].
    simpl. by rewrite lookup_doc_patch, Hp.
  - apply updatePodcastViews_missing.
Qed.

Lemma updatePodcastViews_increments_witness :
  (∃ s' p', updatePodcastViews "p2" None catalogue = Done () s' ∧
            getPodcastById "p2" s' = Some p' ∧ views p' = 5 + 1) ∧
  updatePodcastViews "nobody" None catalogue = Thrown PodcastNotFound catalogue.
Proof.
  destruct (updatePodcastViews_increments None catalogue "p2") as [Hfound _].
  destruct (updatePodcastViews_increments None catalogue "nobody") as [_ Hmissing].
  split; [|exact (Hmissing eq_refl)].
  apply (Hfound p2 eq_refl). simpl. lia.
Defined.

(** C9: on an existing podcast the view increment changes the [views] field
    of that document only: its other fields, the other documents, the users
    and the stored files are what they were. *)
Theorem updatePodcastViews_frame who s id p :
  getPodcastById id s = Some p →
  ∃ s' p', updatePodcastViews id who s = Done () s' ∧
           getPodcastById id s' = Some p' ∧
           same_except_views p p' ∧
           (∀ id', id' ≠ id → getPodcastById id' s' = getPodcastById id' s) ∧
           length (podcasts s') = length (podcasts s) ∧
           users s' = users s ∧ storage s' = storage s.
Proof.
  unfold getPodcastById. intros Hp.
  eexists _, (patch_fields (views_patch (js_add (views p) 1)) p).
  split; [by apply updatePodcastViews_found|]. simpl.
  split; [by rewrite lookup_doc_patch, Hp|].
  split; [by repeat split|].
  split; [intros id' Hne; by apply lookup_doc_patch_ne|].
  split; [apply length_fmap | done].
Qed.

Lemma updatePodcastViews_frame_witness :
  ∃ s' p', updatePodcastViews "p1" None catalogue = Done () s' ∧
           getPodcastById "p1" s' = Some p' ∧
           same_except_views p1 p' ∧
           (∀ id', id' ≠ "p1" → getPodcastById id' s' = getPodcastById id' catalogue) ∧
           length (podcasts s') = length (podcasts catalogue) ∧
           users s' = users catalogue ∧ storage s' = storage catalogue.
Proof. exact (updatePodcastViews_frame None catalogue "p1" p1 eq_refl). Defined.

(** ** Delete *)

Ltac listed :=
  repeat first [apply list_elem_of_here | apply list_elem_of_further].

Lemma catalogue_holds file :
  file ∈ ["img_p1"; "aud_p1"; "img_p2"; "aud_p2";
          "img_p3"; "aud_p3"; "img_p4"; "aud_p4"] →
  file ∈ storage catalogue.
Proof.
  intros Hfile. simpl. repeat rewrite elem_of_union. rewrite !elem_of_singleton.
  repeat (apply elem_of_cons in Hfile as [->|Hfile]; [tauto|]).
  by apply not_elem_of_nil in Hfile.
Qed.

(** The store of [catalogue] after [p1] is deleted with the storage
    references of [p2]: the assets of [p1] are still in the file storage. *)
Lemma delete_cascades_own_assets_fails :
  ¬ delete_cascades_own_assets as_alice catalogue "p1" "img_p2" "aud_p2".
Proof.
  intros H. destruct (H p1 eq_refl) as (s' & Hrun & Himg & _).
  rewrite (deletePodcast_found as_alice catalogue "p1" "img_p2" "aud_p2" p1)
    in Hrun; [|done| | |done]; [|by apply catalogue_holds; listed..].
  injection Hrun as <-. apply Himg. simpl.
  repeat (apply elem_of_difference; split; [|by intros ?%elem_of_singleton]).
  apply (catalogue_holds "img_p1"). left.
Qed.

(** C4, as the handler has it: deleting an identifier with no document
    throws "Podcast not found" and leaves the store alone; deleting an
    existing podcast with two distinct storage references that the file
    storage holds removes these two files, then removes the document, after
    which a get on the identifier finds nothing; the other documents, the
    users and the other files stay. When the caller passes the references
    held by the document, these are the podcast's own image and audio. When
    a passed reference is not in the storage, or both are the same, the
    storage refuses and the mutation leaves the store as it was. *)
Theorem deletePodcast_cascade who s id img aud :
  (getPodcastById id s = None →
     deletePodcast id img aud who s = Thrown PodcastNotFound s) ∧
  (∀ p, getPodcastById id s = Some p →
     img ∈ storage s → aud ∈ storage s → img ≠ aud →
     ∃ s', deletePodcast id img aud who s = Done () s' ∧
           storage s' = storage s ∖ {[img]} ∖ {[aud]} ∧
           getPodcastById id s' = None ∧
           (∀ id', id' ≠ id → getPodcastById id' s' = getPodcastById id' s) ∧
           users s' = users s ∧
           (img = imageStorageId p → aud = audioStorageId p →
              (imageStorageId p ∉ storage s') ∧ (audioStorageId p ∉ storage s'))) ∧
  (∀ p, getPodcastById id s = Some p →
     img ∉ storage s ∨ aud ∉ storage s ∨ img = aud →
     deletePodcast id img aud who s = Thrown StoreError s).
Proof.
  unfold getPodcastById. split; [apply deletePodcast_missing|]. split.
  - intros p Hp Himg Haud Hne. eexists.
    split; [by eapply deletePodcast_found|]. simpl.
    split; [done|]. split; [apply lookup_doc_delete|].
    split; [intros id' Hid; by apply lookup_doc_delete_ne|].
    split; [done|]. intros <- <-.
    split; intros Hin; repeat (apply elem_of_difference in Hin as [Hin ?]);
      set_solver.
  - intros p Hp Hbad. by eapply deletePodcast_refused.
Qed.

Lemma deletePodcast_cascade_witness :
  deletePodcast "nobody" "img_p1" "aud_p1" None catalogue
    = Thrown PodcastNotFound catalogue ∧
  (∃ s', deletePodcast "p1" "img_p1" "aud_p1" None catalogue = Done () s' ∧
         storage s' = storage catalogue ∖ {["img_p1"]} ∖ {["aud_p1"]} ∧
         getPodcastById "p1" s' = None ∧
         (∀ id', id' ≠ "p1" → getPodcastById id' s' = getPodcastById id' catalogue) ∧
         users s' = users catalogue ∧
         ("img_p1" = imageStorageId p1 → "aud_p1" = audioStorageId p1 →
            (imageStorageId p1 ∉ storage s') ∧ (audioStorageId p1 ∉ storage s'))) ∧
  deletePodcast "p1" "img_p1" "img_p1" None catalogue
    = Thrown StoreError catalogue.
Proof.
  destruct (deletePodcast_cascade None catalogue "nobody" "img_p1" "aud_p1")
    as (Hmissing & _ & _).
  destruct (deletePodcast_cascade None catalogue "p1" "img_p1" "aud_p1")
    as (_ & Hfound & _).
  destruct (deletePodcast_cascade None catalogue "p1" "img_p1" "img_p1")
    as (_ & _ & Hrefused).
  split; [exact (Hmissing eq_refl)|]. split.
  - apply (Hfound p1 eq_refl); [by apply catalogue_holds; listed.. | done].
  - apply (Hrefused p1 eq_refl). by right; right.
Defined.

(** ** Who may update and delete *)

(** Bob, who owns none of Alice's podcasts, updates and deletes [p1]; a
    caller with no identity deletes it as well. *)
Lemma owner_only_fails :
  ¬ owner_only (updatePodcast retitle_p1) "p1" as_bob catalogue ∧
  ¬ owner_only (deletePodcast "p1" "img_p1" "aud_p1") "p1" as_bob catalogue ∧
  ¬ owner_only (deletePodcast "p1" "img_p1" "aud_p1") "p1" None catalogue.
Proof.
  assert (Hbob : ¬ owned_by as_bob catalogue p1).
  { unfold owned_by. simpl. intros Hin.
    apply list_elem_of_singleton in Hin. discriminate Hin. }
  assert (Hdelete : ∀ who,
    deletePodcast "p1" "img_p1" "aud_p1" who catalogue =
      Done () {| podcasts := delete_doc "p1" (podcasts catalogue);
                 users := users catalogue;
                 storage := storage catalogue ∖ {["img_p1"]} ∖ {["aud_p1"]} |}).
  { intros who. apply (deletePodcast_found who catalogue "p1" _ _ p1);
      [done | by apply catalogue_holds; listed.. | done]. }
  split; [|split].
  - intros [_ H]. by apply (H p1 eq_refl Hbob).
  - intros [_ H]. apply (H p1 eq_refl Hbob). by rewrite Hdelete.
  - intros [H _]. specialize (H eq_refl). rewrite Hdelete in H. discriminate H.
Qed.

(** C5, as the handlers have it: an update by a caller with no identity
    throws "User not authenticated" and leaves the store alone; ownership is
    not consulted: for every authenticated caller, owner or not, the update
    of an existing podcast runs to completion, and so does its deletion
    when the two storage references passed are distinct files the storage
    holds. *)
Theorem mutations_check_identity_only args id img aud s :
  updatePodcast args None s = Thrown UserNotAuthenticated s ∧
  (∀ ident p,
     getPodcastById (UpdatePodcastArgs.podcastId args) s = Some p →
     succeeds (updatePodcast args (Some ident) s)) ∧
  (∀ ident p,
     getPodcastById id s = Some p →
     img ∈ storage s → aud ∈ storage s → img ≠ aud →
     succeeds (deletePodcast id img aud (Some ident) s)).
Proof.
  unfold getPodcastById. split; [done|]. split.
  - intros ident p Hp. by rewrite (updatePodcast_found ident s args p Hp).
  - intros ident p Hp Himg Haud Hne.
    by rewrite (deletePodcast_found (Some ident) s id img aud p Hp Himg Haud Hne).
Qed.

Lemma mutations_check_identity_only_witness :
  updatePodcast retitle_p1 None catalogue
    = Thrown UserNotAuthenticated catalogue ∧
  succeeds (updatePodcast retitle_p1 as_bob catalogue) ∧
  succeeds (deletePodcast "p1" "img_p1" "aud_p1" as_bob catalogue).
Proof.
  destruct (mutations_check_identity_only retitle_p1 "p1" "img_p1" "aud_p1"
              catalogue) as (Hnone & Hupdate & Hdelete).
  split; [exact Hnone|].
  split; [exact (Hupdate _ p1 eq_refl)|].
  apply (Hdelete _ p1 eq_refl); [by apply catalogue_holds; listed.. | done].
Defined.

(** ** Update *)

Lemma truthy_string_false s : truthy_string s = false ↔ s = "".
Proof. by destruct s. Qed.

(** C7: an update of an existing podcast by an authenticated caller writes
    a text field exactly when the supplied text is not empty and the
    duration exactly when the supplied number is not zero, otherwise the
    stored value stays; the view counter is written whatever its value,
    zero included; both storage references are always written; the fields
    the handler never writes, the other documents, the users and the files
    keep their values. *)
Theorem updatePodcast_writes ident s args p :
  getPodcastById (UpdatePodcastArgs.podcastId args) s = Some p →
  ∃ s' p',
    updatePodcast args (Some ident) s = Done () s' ∧
    getPodcastById (UpdatePodcastArgs.podcastId args) s' = Some p' ∧
    podcastTitle p' =
      (if decide (UpdatePodcastArgs.podcastTitle args = "")
       then podcastTitle p else UpdatePodcastArgs.podcastTitle args) ∧
    podcastDescription p' =
      (if decide (UpdatePodcastArgs.podcastDescription args = "")
       then podcastDescription p else UpdatePodcastArgs.podcastDescription args) ∧
    audioUrl p' =
      (if decide (UpdatePodcastArgs.audioUrl args = "")
       then audioUrl p else UpdatePodcastArgs.audioUrl args) ∧
    imageUrl p' =
      (if decide (UpdatePodcastArgs.imageUrl args = "")
       then imageUrl p else Some (UpdatePodcastArgs.imageUrl args)) ∧
    voicePrompt p' =
      (if decide (UpdatePodcastArgs.voicePrompt args = "")
       then voicePrompt p else UpdatePodcastArgs.voicePrompt args) ∧
    imagePrompt p' =
      (if decide (UpdatePodcastArgs.imagePrompt args = "")
       then imagePrompt p else UpdatePodcastArgs.imagePrompt args) ∧
    voiceType p' =
      (if decide (UpdatePodcastArgs.voiceType args = "")
       then voiceType p else UpdatePodcastArgs.voiceType args) ∧
    categoryType p' =
      (if decide (UpdatePodcastArgs.categoryType args = "")
       then categoryType p else UpdatePodcastArgs.categoryType args) ∧
    views p' = UpdatePodcastArgs.views args ∧
    audioDuration p' =
      (if decide (UpdatePodcastArgs.audioDuration args = 0)
       then audioDuration p else UpdatePodcastArgs.audioDuration args) ∧
    audioStorageId p' = UpdatePodcastArgs.audioStorageId args ∧
    imageStorageId p' = UpdatePodcastArgs.imageStorageId args ∧
    _id p' = _id p ∧ user p' = user p ∧ author p' = author p ∧
    authorId p' = authorId p ∧ authorImageUrl p' = authorImageUrl p ∧
    (∀ id', id' ≠ UpdatePodcastArgs.podcastId args →
            getPodcastById id' s' = getPodcastById id' s) ∧
    users s' = users s ∧ storage s' = storage s.
Proof.
  unfold getPodcastById. intros Hp.
  eexists _, (patch_fields (updates_of_args args) p).
  split; [by apply (updatePodcast_found ident s args p)|]. simpl.
  split; [by rewrite lookup_doc_patch, Hp|].
  destruct args as [id t d au iu vp ip vt ct vw du asid isid]; simpl in *.
  repeat split;
    try (intros id' Hne; by apply lookup_doc_patch_ne);
    try by (match goal with |- context [decide (?x = "")] => destruct x end).
  unfold truthy_number. destruct (decide (du = 0)) as [->|Hne]; [done|].
  by rewrite (proj2 (Z.eqb_neq du 0) Hne).
Qed.

Lemma updatePodcast_writes_witness :
  ∃ s' p',
    updatePodcast retitle_p1 as_bob catalogue = Done () s' ∧
    getPodcastById "p1" s' = Some p' ∧
    podcastTitle p' = "Rocq daily" ∧
    podcastDescription p' = podcastDescription p1 ∧
    views p' = 0 ∧
    audioDuration p' = audioDuration p1 ∧
    audioStorageId p' = "aud_new" ∧ imageStorageId p' = "img_new" ∧
    author p' = author p1.
Proof.
  destruct (updatePodcast_writes (mkIdentity "bob@example.org") catalogue
              retitle_p1 p1 eq_refl)
    as (s' & p' & Hrun & Hget & Ht & Hd & _ & _ & _ & _ & _ & _ & Hv & Hdu &
        Ha & Hi & _ & _ & Hau & _).
  exists s', p'. repeat split; assumption.
Defined.

(** ** Author statistics *)

Lemma filter_no_match {A} (P : A → Prop) `{!∀ x, Decision (P x)} (l : list A) :
  (∀ x, x ∈ l → ¬ P x) → filter P l = [].
Proof.
  induction l as [|x l IH]; intros Hnone; [done|].
  rewrite filter_cons_False; [|apply Hnone; left].
  apply IH. intros y Hy. apply Hnone. by right.
Qed.

Lemma sum_views_nonneg (l : list Podcast) :
  (∀ p, p ∈ l → 0 ≤ views p) → 0 ≤ sum_views l.
Proof.
  unfold sum_views. induction l as [|q l IH]; intros Hpos; csimpl; [done|].
  assert (0 ≤ views q) by (apply Hpos; left).
  assert (0 ≤ foldr Z.add 0 (views <$> l)) by (apply IH; intros p Hp; apply Hpos; by right).
  lia.
Qed.

(** The running total is exact as long as it stays within 2^53. *)
Lemma foldl_views_sum (l : list Podcast) (start : Z) :
  0 ≤ start →
  (∀ p, p ∈ l → 0 ≤ views p) →
  start + sum_views l ≤ 2 ^ 53 →
  foldl (λ sum podcast, js_add sum (views podcast)) start l = start + sum_views l.
Proof.
  revert start. induction l as [|q l IH]; intros start Hstart Hpos Hsum.
  - unfold sum_views. csimpl. lia.
  - assert (Hq : 0 ≤ views q) by (apply Hpos; left).
    assert (Hrest : ∀ p, p ∈ l → 0 ≤ views p) by (intros p Hp; apply Hpos; by right).
    pose proof (sum_views_nonneg l Hrest) as Hl.
    assert (Hcons : sum_views (q :: l) = views q + sum_views l) by done.
    rewrite Hcons in *. cbn [foldl].
    rewrite js_add_exact by lia. rewrite IH; [lia | lia | done | lia].
Qed.

(** Views of 2^53, 1 and 1 add up to 2^53 + 2, but each float64 addition
    of 1 to 2^53 gives 2^53 back: the listener total of the author of
    [saturated] is 2^53. *)
Lemma total_is_arithmetic_sum_fails :
  ¬ total_is_arithmetic_sum "clerk_alice" saturated.
Proof. unfold total_is_arithmetic_sum. by vm_compute. Qed.

(** C6, as the handler has it: the author statistics are the documents of
    the table whose [authorId] is the given one, in table order, together
    with a total that is the arithmetic sum of their view counters when
    these are non-negative and sum to at most 2^53, the range in which the
    float64 additions are exact; with no such document the list is empty
    and the total is zero. *)
Theorem getPodcastByAuthorId_total a s :
  AuthorStats.podcasts (getPodcastByAuthorId a s)
    = filter (λ p, authorId p = a) (podcasts s) ∧
  (∀ p, p ∈ AuthorStats.podcasts (getPodcastByAuthorId a s)
        ↔ p ∈ podcasts s ∧ authorId p = a) ∧
  ((∀ p, p ∈ podcasts s → authorId p = a → 0 ≤ views p) →
   sum_views (AuthorStats.podcasts (getPodcastByAuthorId a s)) ≤ 2 ^ 53 →
   AuthorStats.listeners (getPodcastByAuthorId a s)
     = sum_views (AuthorStats.podcasts (getPodcastByAuthorId a s))) ∧
  ((∀ p, p ∈ podcasts s → authorId p ≠ a) →
     AuthorStats.podcasts (getPodcastByAuthorId a s) = [] ∧
     AuthorStats.listeners (getPodcastByAuthorId a s) = 0).
Proof.
  unfold getPodcastByAuthorId; cbn [AuthorStats.podcasts AuthorStats.listeners].
  split; [done|]. split.
  { intros p. rewrite list_elem_of_filter. tauto. }
  split.
  { intros Hpos Hsum. rewrite foldl_views_sum; [lia | done | | lia].
    intros p Hp. apply list_elem_of_filter in Hp as [Ha Hp]. by apply Hpos. }
  intros Hnone.
  assert (Hnil : filter (λ p, authorId p = a) (podcasts s) = []).
  { apply filter_no_match. intros p Hp. by apply Hnone. }
  by rewrite Hnil.
Qed.

Lemma getPodcastByAuthorId_total_witness :
  AuthorStats.listeners (getPodcastByAuthorId "clerk_alice" catalogue)
    = sum_views (AuthorStats.podcasts (getPodcastByAuthorId "clerk_alice" catalogue)) ∧
  AuthorStats.podcasts (getPodcastByAuthorId "clerk_carol" catalogue) = [] ∧
  AuthorStats.listeners (getPodcastByAuthorId "clerk_carol" catalogue) = 0.
Proof.
  destruct (getPodcastByAuthorId_total "clerk_alice" catalogue)
    as (_ & _ & Hsum & _).
  destruct (getPodcastByAuthorId_total "clerk_carol" catalogue)
    as (_ & _ & _ & Hnone).
  split.
  - apply Hsum; [|by vm_compute].
    intros p Hp _. simpl in Hp.
    repeat (apply elem_of_cons in Hp as [->|Hp]; [by vm_compute|]).
    by apply not_elem_of_nil in Hp.
  - apply Hnone. intros p Hp. simpl in Hp.
    repeat (apply elem_of_cons in Hp as [->|Hp]; [discriminate|]).
    by apply not_elem_of_nil in Hp.
Defined.

(** Alice's three podcasts have 3, 0 and 7 views: 10 listeners. *)
Example getPodcastByAuthorId_alice :
  getPodcastByAuthorId "clerk_alice" catalogue
    = {| AuthorStats.podcasts := [p1; p3; p4]; AuthorStats.listeners := 10 |}.
Proof. by vm_compute. Qed.

(** ** Similar podcasts *)

(** C10: every podcast the voice-type query returns is a document of the
    table other than the queried one, and has the [voiceType] of the
    queried podcast; the queried podcast is not in the result. *)
Theorem getPodcastByVoiceType_similar id s :
  (∀ p, p ∈ getPodcastByVoiceType id s →
        p ∈ podcasts s ∧ _id p ≠ id ∧
        ∃ q, getPodcastById id s = Some q ∧ voiceType p = voiceType q) ∧
  (∀ q, getPodcastById id s = Some q → q ∉ getPodcastByVoiceType id s).
Proof.
  unfold getPodcastByVoiceType, getPodcastById. split.
  - intros p Hp. apply list_elem_of_filter in Hp as [[Hvoice Hne] Hin].
    split; [done|]. split; [done|].
    destruct (lookup_doc id (podcasts s)) as [q|]; [|done].
    exists q. split; [done|]. simpl in Hvoice. congruence.
  - intros q Hq Hin. apply list_elem_of_filter in Hin as [[_ Hne] _].
    apply lookup_doc_Some in Hq as [_ Hid]. done.
Qed.

Lemma getPodcastByVoiceType_similar_witness :
  (p1 ∈ podcasts catalogue ∧ _id p1 ≠ "p2" ∧
   ∃ q, getPodcastById "p2" catalogue = Some q ∧ voiceType p1 = voiceType q) ∧
  p2 ∉ getPodcastByVoiceType "p2" catalogue.
Proof.
  destruct (getPodcastByVoiceType_similar "p2" catalogue) as [Hsame Hself].
  split; [|exact (Hself p2 eq_refl)].
  apply Hsame. unfold getPodcastByVoiceType.
  apply list_elem_of_filter. split; [by split | by left].
Defined.

Example getPodcastByVoiceType_p2 :
  getPodcastByVoiceType "p2" catalogue = [p1; p4] ∧
  getPodcastByVoiceType "nobody" catalogue = [].
Proof. split; reflexivity. Qed.

(** ** Trending *)

Section sort_facts.
Context {A : Type} (cmp : A → A → Z).

Lemma sort_insert_perm x l : sort_insert cmp x l ≡ₚ x :: l.
Proof.
  induction l as [|y l IH]; simpl; [done|].
  destruct (cmp x y <=? 0); [done|].
  rewrite IH. apply Permutation_swap.
Qed.

Lemma js_sort_perm l : js_sort cmp l ≡ₚ l.
Proof.
  unfold js_sort. induction l as [|x l IH]; simpl; [done|].
  by rewrite sort_insert_perm, IH.
Qed.

Lemma js_sort_length l : length (js_sort cmp l) = length l.
Proof. apply Permutation_length, js_sort_perm. Qed.
End sort_facts.

Lemma sort_insert_views_desc x l :
  StronglySorted views_desc l →
  StronglySorted views_desc (sort_insert by_views_desc x l).
Proof.
  induction 1 as [|y l Hsorted IH Hall]; simpl.
  - repeat constructor.
  - unfold by_views_desc at 1.
    destruct (views y - views x <=? 0) eqn:Hcmp.
    + apply Z.leb_le in Hcmp.
      constructor; [by constructor|].
      constructor; [unfold views_desc; lia|].
      eapply Forall_impl; [exact Hall|].
      unfold views_desc. intros z Hz. lia.
    + apply Z.leb_gt in Hcmp.
      constructor; [exact IH|].
      rewrite sort_insert_perm.
      constructor; [unfold views_desc; lia | exact Hall].
Qed.

Lemma js_sort_views_desc l :
  StronglySorted views_desc (js_sort by_views_desc l).
Proof.
  unfold js_sort. induction l as [|x l IH]; simpl; [constructor|].
  by apply sort_insert_views_desc.
Qed.

(** C2: the trending list has [min 8 n] entries for a table of [n]
    podcasts, is in descending order of views, and is the head of the whole
    table put in that order; with fewer than 8 podcasts it is a
    rearrangement of the whole table, nothing added. *)
Theorem getTrendingPodcasts_top8 s :
  length (getTrendingPodcasts s) = min 8 (length (podcasts s)) ∧
  StronglySorted views_desc (getTrendingPodcasts s) ∧
  (∃ rest, getTrendingPodcasts s ++ rest ≡ₚ podcasts s ∧
           StronglySorted views_desc (getTrendingPodcasts s ++ rest)) ∧
  ((length (podcasts s) < 8)%nat → getTrendingPodcasts s ≡ₚ podcasts s).
Proof.
  unfold getTrendingPodcasts.
  pose proof (js_sort_views_desc (podcasts s)) as Hsorted.
  pose proof (js_sort_perm by_views_desc (podcasts s)) as Hperm.
  split; [by rewrite length_take, js_sort_length|].
  split.
  { rewrite <- (take_drop 8 (js_sort by_views_desc (podcasts s))) in Hsorted.
    by apply StronglySorted_app_1_l in Hsorted. }
  split.
  { exists (drop 8 (js_sort by_views_desc (podcasts s))).
    by rewrite take_drop. }
  intros Hfew. rewrite take_ge; [done|].
  rewrite js_sort_length. lia.
Qed.

Lemma getTrendingPodcasts_top8_witness :
  getTrendingPodcasts catalogue ≡ₚ podcasts catalogue.
Proof.
  apply (getTrendingPodcasts_top8 catalogue). simpl. lia.
Defined.

Example getTrendingPodcasts_catalogue :
  getTrendingPodcasts catalogue = [p4; p2; p1; p3].
Proof. reflexivity. Qed.

(** With ten podcasts the two least viewed are left out, and the tie
    between [e1] and [e3] keeps the order of the table. *)
Example getTrendingPodcasts_crowded :
  (λ p, (_id p, views p)) <$> getTrendingPodcasts crowded
    = [("e1", 9); ("e3", 9); ("e8", 8); ("e6", 7);
       ("e9", 5); ("e5", 4); ("e2", 3); ("e7", 2)].
Proof. reflexivity. Qed.

(** ** Search *)

(** C1: with the empty term the resolver returns the whole table, latest
    document first; with any other term it returns the author matches when
    there are some, otherwise the title matches when there are some,
    otherwise the description matches, empty or not; each lookup is cut at
    10 documents, so the result is one of the three lookups, never a
    combination of two. *)
Theorem getPodcastBySearch_chain
    (index : string → string → string → list Podcast → list Podcast)
    (term : string) (s : Store) :
  getPodcastBySearch index "" s = reverse (podcasts s) ∧
  (term ≠ "" →
     (author_matches index term s ≠ [] →
        getPodcastBySearch index term s = author_matches index term s) ∧
     (author_matches index term s = [] → title_matches index term s ≠ [] →
        getPodcastBySearch index term s = title_matches index term s) ∧
     (author_matches index term s = [] → title_matches index term s = [] →
        getPodcastBySearch index term s = description_matches index term s) ∧
     (getPodcastBySearch index term s = author_matches index term s ∨
      getPodcastBySearch index term s = title_matches index term s ∨
      getPodcastBySearch index term s = description_matches index term s) ∧
     (length (getPodcastBySearch index term s) ≤ 10)%nat).
Proof.
  split; [done|]. intros Hterm.
  unfold getPodcastBySearch, author_matches, title_matches, description_matches.
  rewrite decide_False by done.
  change (js_or "podcastDescription" "podcastTitle") with "podcastDescription".
  set (byAuthor := take 10 (withSearchIndex index "search_author" "author" term s)).
  set (byTitle := take 10 (withSearchIndex index "search_title" "podcastTitle" term s)).
  set (byBody :=
         take 10 (withSearchIndex index "search_body" "podcastDescription" term s)).
  assert (Hcut : ∀ l : list Podcast, (length (take 10 l) ≤ 10)%nat).
  { intros l. rewrite length_take. lia. }
  assert (Hauthor : (length byAuthor ≤ 10)%nat) by apply Hcut.
  assert (Htitle : (length byTitle ≤ 10)%nat) by apply Hcut.
  assert (Hbody : (length byBody ≤ 10)%nat) by apply Hcut.
  clearbody byAuthor byTitle byBody.
  destruct byAuthor as [|a byAuthor].
  - rewrite bool_decide_false by (simpl; lia).
    destruct byTitle as [|t byTitle].
    + rewrite bool_decide_false by (simpl; lia).
      split_and!; [done | done | done | by right; right | done].
    + rewrite bool_decide_true by (simpl; lia).
      split_and!; [done | done | done | by right; left | done].
  - rewrite bool_decide_true by (simpl; lia).
    split_and!; [done | done | done | by left | done].
Qed.

Lemma getPodcastBySearch_chain_witness :
  getPodcastBySearch exact_match_index "Jokes" catalogue
    = title_matches exact_match_index "Jokes" catalogue.
Proof.
  destruct (getPodcastBySearch_chain exact_match_index "Jokes" catalogue)
    as [_ Hchain].
  destruct Hchain as (_ & Htitle & _); [discriminate|].
  apply Htitle; [reflexivity | discriminate].
Defined.

Example getPodcastBySearch_catalogue :
  getPodcastBySearch exact_match_index "" catalogue = [p4; p3; p2; p1] ∧
  getPodcastBySearch exact_match_index "Alice" catalogue = [p1; p3; p4] ∧
  getPodcastBySearch exact_match_index "Jokes" catalogue = [p2] ∧
  getPodcastBySearch exact_match_index "about Types" catalogue = [p4] ∧
  getPodcastBySearch exact_match_index "nothing" catalogue = [].
Proof. repeat split; reflexivity. Qed.

(** ** Categories on the Discover page *)

Lemma foldl_insert_lookup {V} (f : string → V) (labels : list string)
    (m : gmap string V) (label : string) :
  foldl (λ acc k, <[k := f k]> acc) m labels !! label
    = if decide (label ∈ labels) then Some (f label) else m !! label.
Proof.
  revert m. induction labels as [|k labels IH]; intros m; simpl.
  - destruct (decide (label ∈ [])) as [Hin|_]; [|done].
    by apply not_elem_of_nil in Hin.
  - rewrite IH.
    destruct (decide (label ∈ labels)) as [Hin|Hnotin];
      destruct (decide (label ∈ k :: labels)) as [Hin'|Hnotin']; try done.
    + exfalso. apply Hnotin'. by right.
    + apply elem_of_cons in Hin' as [->|Hin']; [|done].
      by rewrite lookup_insert_eq.
    + rewrite lookup_insert_ne; [done|].
      intros ->. apply Hnotin'. left.
Qed.

Lemma fetchCategoryPodcasts_lookup s label :
  fetchCategoryPodcasts s !! label
    = if decide (label ∈ podcastCategories)
      then Some (with_image_default <$> getPodcastByCategoryType label s)
      else None.
Proof.
  unfold fetchCategoryPodcasts.
  rewrite (foldl_insert_lookup
             (λ c, with_image_default <$> getPodcastByCategoryType c s)).
  by destruct (decide (label ∈ podcastCategories)).
Qed.

Lemma Discover_loaded_page s :
  Discover_loaded s =
    Page (card <$> getTrendingPodcasts s)
         (omap (category_section (fetchCategoryPodcasts s)) podcastCategories).
Proof.
  unfold Discover_loaded, Discover.
  destruct (existsb _ podcastCategories) eqn:Hloading; [|done].
  apply existsb_exists in Hloading as (label & Hin & Hnone).
  apply list_elem_of_In in Hin. apply bool_decide_eq_true in Hnone.
  rewrite fetchCategoryPodcasts_lookup, decide_True in Hnone by done.
  discriminate Hnone.
Qed.

(** C8: a label of the thirteen with no podcast of that [categoryType] is
    mapped to the empty list by the category effect, and the loaded page has
    no section for it; no section of the page is without a card. *)
Theorem Discover_suppresses_empty_categories s label :
  length podcastCategories = 13%nat ∧
  (label ∈ podcastCategories →
   (∀ p, p ∈ podcasts s → categoryType p ≠ label) →
   fetchCategoryPodcasts s !! label = Some [] ∧
   ∃ trending sections,
     Discover_loaded s = Page trending sections ∧
     (∀ sec, sec ∈ sections → section_key sec ≠ label) ∧
     (∀ sec, sec ∈ sections → cards sec ≠ [])).
Proof.
  split; [done|]. intros Hlabel Hnone.
  assert (Hempty : getPodcastByCategoryType label s = []).
  { unfold getPodcastByCategoryType. by apply filter_no_match. }
  assert (Hfetched : fetchCategoryPodcasts s !! label = Some []).
  { rewrite fetchCategoryPodcasts_lookup, decide_True by done.
    by rewrite Hempty. }
  split; [done|].
  eexists _, _. split; [apply Discover_loaded_page|].
  split; intros sec Hsec;
    apply list_elem_of_omap in Hsec as (c & _ & Hsec);
    unfold category_section in Hsec;
    destruct (fetchCategoryPodcasts s !! c) as [found|] eqn:Hc; try done;
    case_bool_decide as Hlen; try done;
    injection Hsec as <-; simpl.
  - intros ->. rewrite Hfetched in Hc. injection Hc as <-. simpl in Hlen. lia.
  - destruct found; [simpl in Hlen; lia | done].
Qed.

Lemma Discover_suppresses_empty_categories_witness :
  fetchCategoryPodcasts catalogue !! "music" = Some [] ∧
  ∃ trending sections,
    Discover_loaded catalogue = Page trending sections ∧
    (∀ sec, sec ∈ sections → section_key sec ≠ "music") ∧
    (∀ sec, sec ∈ sections → cards sec ≠ []).
Proof.
  apply (Discover_suppresses_empty_categories catalogue "music").
  - unfold podcastCategories. do 8 right. left.
  - intros p Hp. simpl in Hp.
    repeat (apply elem_of_cons in Hp as [->|Hp]; [discriminate|]).
    by apply not_elem_of_nil in Hp.
Defined.

(** The catalogue has podcasts in three categories: three sections. *)
Example Discover_loaded_catalogue :
  ∃ trending sections,
    Discover_loaded catalogue = Page trending sections ∧
    (λ sec, (heading sec, card_key <$> cards sec)) <$> sections
      = [("Technology Podcasts", ["p1"; "p3"]);
         ("Comedy Podcasts", ["p2"]);
         ("Education Podcasts", ["p4"])].
Proof.
  eexists _, _. split; [apply Discover_loaded_page|].
  vm_compute. reflexivity.
Qed.

(** ** Creating a podcast *)

Lemma lookup_doc_snoc id tbl p :
  lookup_doc id (tbl ++ [p]) =
    match lookup_doc id tbl with
    | Some q => Some q
    | None => if decide (_id p = id) then Some p else None
    end.
Proof.
  induction tbl as [|q tbl IH]; simpl; [done|].
  by destruct (decide (_id q = id)).
Qed.

Lemma createPodcast_known ident s newId args owner others :
  filter (λ u, email u = identity_email ident) (users s) = owner :: others →
  createPodcast newId args (Some ident) s =
    Done newId (set_podcasts (podcasts s ++ [new_podcast args owner newId]) s).
Proof.
  intros Hu. unfold createPodcast, bind, getUserIdentity, users_by_email.
  by rewrite Hu.
Qed.

Lemma createPodcast_unknown ident s newId args :
  filter (λ u, email u = identity_email ident) (users s) = [] →
  createPodcast newId args (Some ident) s = Thrown UserNotFound s.
Proof.
  intros Hu. unfold createPodcast, bind, getUserIdentity, users_by_email.
  by rewrite Hu.
Qed.

(** A caller with no identity cannot create a podcast, and neither can a
    caller whose e-mail no document of the [users] table carries: the
    handler throws "User not authenticated", respectively "User not found",
    and the store is left as it was. *)
Theorem createPodcast_rejects newId args s :
  createPodcast newId args None s = Thrown UserNotAuthenticated s ∧
  (∀ ident,
     (∀ u, u ∈ users s → email u ≠ identity_email ident) →
     createPodcast newId args (Some ident) s = Thrown UserNotFound s).
Proof.
  split; [done|]. intros ident Hnone.
  apply createPodcast_unknown. by apply filter_no_match.
Qed.

Lemma createPodcast_rejects_witness :
  createPodcast "p5" new_episode as_carol catalogue
    = Thrown UserNotFound catalogue.
Proof.
  apply (createPodcast_rejects "p5" new_episode catalogue).
  intros u Hu. simpl in Hu.
  repeat (apply elem_of_cons in Hu as [->|Hu]; [discriminate|]).
  by apply not_elem_of_nil in Hu.
Defined.

(** A caller whose e-mail is that of a user creates a podcast: the handler
    returns the identifier the store allotted, a get on it finds a document
    with the submitted fields, owned by and attributed to the first user
    with that e-mail; every other identifier resolves as before, and the
    users and the files are untouched. *)
Theorem createPodcast_inserts ident s newId args owner others :
  filter (λ u, email u = identity_email ident) (users s) = owner :: others →
  getPodcastById newId s = None →
  ∃ s',
    createPodcast newId args (Some ident) s = Done newId s' ∧
    getPodcastById newId s' = Some (new_podcast args owner newId) ∧
    user (new_podcast args owner newId) = user_id owner ∧
    author (new_podcast args owner newId) = name owner ∧
    authorId (new_podcast args owner newId) = clerkId owner ∧
    views (new_podcast args owner newId) = CreatePodcastArgs.views args ∧
    (∀ id', id' ≠ newId → getPodcastById id' s' = getPodcastById id' s) ∧
    length (podcasts s') = S (length (podcasts s)) ∧
    users s' = users s ∧ storage s' = storage s.
Proof.
  unfold getPodcastById. intros Hu Hfresh. eexists.
  split; [by apply (createPodcast_known ident s newId args owner others)|].
  simpl. split_and!; try done.
  - rewrite lookup_doc_snoc, Hfresh. simpl. by rewrite decide_True.
  - intros id' Hne. rewrite lookup_doc_snoc.
    destruct (lookup_doc id' (podcasts s)); [done|].
    simpl. by rewrite decide_False.
  - rewrite length_app. simpl. lia.
Qed.

Lemma createPodcast_inserts_witness :
  ∃ s',
    createPodcast "p5" new_episode as_bob catalogue = Done "p5" s' ∧
    getPodcastById "p5" s' = Some (new_podcast new_episode bob "p5") ∧
    user (new_podcast new_episode bob "p5") = user_id bob ∧
    author (new_podcast new_episode bob "p5") = name bob ∧
    authorId (new_podcast new_episode bob "p5") = clerkId bob ∧
    views (new_podcast new_episode bob "p5") = CreatePodcastArgs.views new_episode ∧
    (∀ id', id' ≠ "p5" → getPodcastById id' s' = getPodcastById id' catalogue) ∧
    length (podcasts s') = S (length (podcasts catalogue)) ∧
    users s' = users catalogue ∧ storage s' = storage catalogue.
Proof.
  exact (createPodcast_inserts (mkIdentity "bob@example.org") catalogue "p5"
           new_episode bob [] eq_refl eq_refl).
Defined.

Lemma createPodcast_Done newId args who s r s' :
  createPodcast newId args who s = Done r s' →
  ∃ ident owner others,
    who = Some ident ∧
    filter (λ u, email u = identity_email ident) (users s) = owner :: others ∧
    r = newId ∧
    s' = set_podcasts (podcasts s ++ [new_podcast args owner newId]) s.
Proof.
  unfold createPodcast, bind, getUserIdentity, users_by_email, db_insert, throw.
  destruct who as [ident|]; [|done].
  destruct (filter _ (users s)) as [|owner others] eqn:Hu; [done|].
  intros [= <- <-]. by exists ident, owner, others.
Qed.

(** The podcast a caller creates is one of the caller's own: right after
    the creation [getUserPodcasts] for the same caller lists what it listed
    before, followed by the new podcast. *)
Theorem createPodcast_then_getUserPodcasts ident s s' newId args :
  createPodcast newId args (Some ident) s = Done newId s' →
  ∃ mine created,
    getUserPodcasts (Some ident) s = Done mine s ∧
    getUserPodcasts (Some ident) s' = Done (mine ++ [created]) s' ∧
    _id created = newId ∧
    owned_by (Some ident) s' created.
Proof.
  intros Hrun.
  apply createPodcast_Done in Hrun
    as (ident' & owner & others & [= <-] & Hu & _ & ->).
  exists (filter (λ p, user p = user_id owner) (podcasts s)),
         (new_podcast args owner newId).
  assert (Hafter :
    getUserPodcasts (Some ident)
      (set_podcasts (podcasts s ++ [new_podcast args owner newId]) s)
    = Done (filter (λ p, user p = user_id owner) (podcasts s)
              ++ [new_podcast args owner newId])
           (set_podcasts (podcasts s ++ [new_podcast args owner newId]) s)).
  { unfold getUserPodcasts, bind, getUserIdentity. simpl. rewrite Hu.
    rewrite filter_app, filter_cons_True by done. done. }
  split_and!; [|exact Hafter|done|].
  - unfold getUserPodcasts, bind, getUserIdentity. by rewrite Hu.
  - unfold owned_by. rewrite Hafter. apply elem_of_app. right. left.
Qed.

Lemma createPodcast_then_getUserPodcasts_witness :
  ∃ mine created,
    getUserPodcasts as_bob catalogue = Done mine catalogue ∧
    getUserPodcasts as_bob
      (set_podcasts (podcasts catalogue ++ [new_podcast new_episode bob "p5"])
                    catalogue)
    = Done (mine ++ [created])
        (set_podcasts (podcasts catalogue ++ [new_podcast new_episode bob "p5"])
                      catalogue) ∧
    _id created = "p5" ∧
    owned_by as_bob
      (set_podcasts (podcasts catalogue ++ [new_podcast new_episode bob "p5"])
                    catalogue)
      created.
Proof.
  exact (createPodcast_then_getUserPodcasts (mkIdentity "bob@example.org")
           catalogue _ "p5" new_episode eq_refl).
Defined.

(** The listing of all podcasts, and the search with the empty term, put
    a podcast that was just created in front of everything listed before. *)
Theorem createPodcast_listed_first who s s' newId args :
  createPodcast newId args who s = Done newId s' →
  ∃ created,
    _id created = newId ∧
    getAllPodcasts s' = created :: getAllPodcasts s ∧
    ∀ index, getPodcastBySearch index "" s'
               = created :: getPodcastBySearch index "" s.
Proof.
  intros Hrun.
  apply createPodcast_Done in Hrun as (ident & owner & others & _ & _ & _ & ->).
  exists (new_podcast args owner newId).
  split; [done|]. split; [apply reverse_snoc|].
  intros index. unfold getPodcastBySearch. simpl. apply reverse_snoc.
Qed.

Lemma createPodcast_listed_first_witness :
  ∃ created,
    _id created = "p5" ∧
    getAllPodcasts
      (set_podcasts (podcasts catalogue ++ [new_podcast new_episode bob "p5"])
                    catalogue)
    = created :: getAllPodcasts catalogue ∧
    ∀ index,
      getPodcastBySearch index ""
        (set_podcasts (podcasts catalogue ++ [new_podcast new_episode bob "p5"])
                      catalogue)
      = created :: getPodcastBySearch index "" catalogue.
Proof.
  exact (createPodcast_listed_first as_bob catalogue _ "p5" new_episode eq_refl).
Defined.

(** ** What a mutation that stops or completes leaves behind *)

Lemma updatePodcast_Done args who s s' :
  updatePodcast args who s = Done () s' →
  ∃ ident p,
    who = Some ident ∧
    lookup_doc (UpdatePodcastArgs.podcastId args) (podcasts s) = Some p ∧
    s' = set_podcasts
           (patch_doc (UpdatePodcastArgs.podcastId args) (updates_of_args args)
                      (podcasts s)) s.
Proof.
  unfold updatePodcast, bind, getUserIdentity, db_get, db_patch, throw.
  destruct who as [ident|]; [|done].
  destruct (lookup_doc _ (podcasts s)) as [p|] eqn:Hp; simpl; [|done].
  rewrite Hp. intros [= <-]. by exists ident, p.
Qed.

Lemma updatePodcastViews_Done id who s s' :
  updatePodcastViews id who s = Done () s' →
  ∃ p, lookup_doc id (podcasts s) = Some p ∧
       s' = set_podcasts
              (patch_doc id (views_patch (js_add (views p) 1)) (podcasts s)) s.
Proof.
  intros Hrun. destruct (lookup_doc id (podcasts s)) as [p|] eqn:Hp.
  - rewrite (updatePodcastViews_found who s id p Hp) in Hrun.
    injection Hrun as <-. by exists p.
  - by rewrite (updatePodcastViews_missing who s id Hp) in Hrun.
Qed.

Lemma storage_refs_cases (s : Store) (img aud : Id) :
  (img ∈ storage s ∧ aud ∈ storage s ∧ img ≠ aud) ∨
  (img ∉ storage s ∨ aud ∉ storage s ∨ img = aud).
Proof.
  destruct (decide (img ∈ storage s)); [|by right; left].
  destruct (decide (aud ∈ storage s)); [|by right; right; left].
  destruct (decide (img = aud)); [by right; right; right | by left].
Qed.

Lemma deletePodcast_Done id img aud who s s' :
  deletePodcast id img aud who s = Done () s' →
  ∃ p, lookup_doc id (podcasts s) = Some p ∧
       img ∈ storage s ∧ aud ∈ storage s ∧ img ≠ aud ∧
       s' = {| podcasts := delete_doc id (podcasts s);
               users := users s;
               storage := storage s ∖ {[img]} ∖ {[aud]} |}.
Proof.
  intros Hrun. destruct (lookup_doc id (podcasts s)) as [p|] eqn:Hp.
  - destruct (storage_refs_cases s img aud) as [(Himg & Haud & Hne)|Hbad].
    + rewrite (deletePodcast_found who s id img aud p Hp Himg Haud Hne) in Hrun.
      injection Hrun as <-. by exists p.
    + by rewrite (deletePodcast_refused who s id img aud p Hp Hbad) in Hrun.
  - by rewrite (deletePodcast_missing who s id img aud Hp) in Hrun.
Qed.

(** A mutation that throws leaves the store the handler was given. An
    update, a view increment and a creation throw before they write, and
    only their own exceptions: the store never refuses their patch or
    insert. A deletion throws "Podcast not found" exactly when the document
    is missing; otherwise it throws only what the file storage throws for a
    reference it does not hold, or for the same reference passed twice, and
    the transaction undoes the file deletion made before. *)
Theorem mutations_fail_cleanly who s e s' :
  (∀ args, updatePodcast args who s = Thrown e s' → s' = s ∧ e ≠ StoreError) ∧
  (∀ id, updatePodcastViews id who s = Thrown e s' → s' = s ∧ e ≠ StoreError) ∧
  (∀ newId args,
     createPodcast newId args who s = Thrown e s' → s' = s ∧ e ≠ StoreError) ∧
  (∀ id img aud,
     deletePodcast id img aud who s = Thrown e s' →
     s' = s ∧
     (e = PodcastNotFound ∧ getPodcastById id s = None ∨
      e = StoreError ∧ getPodcastById id s ≠ None ∧
        (img ∉ storage s ∨ aud ∉ storage s ∨ img = aud))).
Proof.
  unfold getPodcastById. split_and!.
  - intros args. destruct who as [ident|]; [|by intros [= <- <-]].
    destruct (lookup_doc (UpdatePodcastArgs.podcastId args) (podcasts s))
      as [p|] eqn:Hp.
    + by rewrite (updatePodcast_found ident s args p Hp).
    + unfold updatePodcast, bind, getUserIdentity, db_get, throw.
      rewrite Hp. by intros [= <- <-].
  - intros id. destruct (lookup_doc id (podcasts s)) as [p|] eqn:Hp.
    + by rewrite (updatePodcastViews_found who s id p Hp).
    + rewrite (updatePodcastViews_missing who s id Hp). by intros [= <- <-].
  - intros newId args.
    unfold createPodcast, bind, getUserIdentity, users_by_email, db_insert, throw.
    destruct who; [|by intros [= <- <-]].
    destruct (filter _ (users s)); [by intros [= <- <-]|done].
  - intros id img aud. destruct (lookup_doc id (podcasts s)) as [p|] eqn:Hp.
    + destruct (storage_refs_cases s img aud) as [(Himg & Haud & Hne)|Hbad].
      * by rewrite (deletePodcast_found who s id img aud p Hp Himg Haud Hne).
      * rewrite (deletePodcast_refused who s id img aud p Hp Hbad).
        intros [= <- <-]. split; [done|]. right. by split_and!.
    + rewrite (deletePodcast_missing who s id img aud Hp).
      intros [= <- <-]. split; [done|]. by left.
Qed.

Lemma mutations_fail_cleanly_witness :
  deletePodcast "p1" "img_p1" "img_p1" None catalogue
    = Thrown StoreError catalogue ∧
  catalogue = catalogue ∧
  (StoreError = PodcastNotFound ∧ getPodcastById "p1" catalogue = None ∨
   StoreError = StoreError ∧ getPodcastById "p1" catalogue ≠ None ∧
     ("img_p1" ∉ storage catalogue ∨ "img_p1" ∉ storage catalogue ∨
      "img_p1" = "img_p1")).
Proof.
  assert (Hrun : deletePodcast "p1" "img_p1" "img_p1" None catalogue
                   = Thrown StoreError catalogue).
  { apply (deletePodcast_refused None catalogue "p1" _ _ p1 eq_refl).
    by right; right. }
  destruct (mutations_fail_cleanly None catalogue StoreError catalogue)
    as (_ & _ & _ & Hdelete).
  split; [exact Hrun | exact (Hdelete "p1" "img_p1" "img_p1" Hrun)].
Defined.

(** ** Identifiers stay unique *)

Lemma patch_doc_ids id u tbl : _id <$> patch_doc id u tbl = _id <$> tbl.
Proof.
  unfold patch_doc. induction tbl as [|q tbl IH]; csimpl; [done|].
  rewrite IH. by destruct (decide (_id q = id)).
Qed.

Lemma delete_doc_unique id tbl :
  NoDup (_id <$> tbl) → NoDup (_id <$> delete_doc id tbl).
Proof.
  intros Hdup. apply (sublist_NoDup _ (_id <$> tbl)); [done|].
  apply fmap_sublist, sublist_filter.
Qed.

Lemma lookup_doc_fresh id tbl :
  lookup_doc id tbl = None → id ∉ _id <$> tbl.
Proof.
  intros Hnone Hin. apply list_elem_of_fmap in Hin as (p & -> & Hp).
  by apply (proj1 (lookup_doc_None (_id p) tbl) Hnone p).
Qed.

Lemma lookup_doc_unique tbl p :
  NoDup (_id <$> tbl) → p ∈ tbl → lookup_doc (_id p) tbl = Some p.
Proof.
  induction tbl as [|q tbl IH]; csimpl; intros Hdup Hp.
  - by apply not_elem_of_nil in Hp.
  - apply NoDup_cons in Hdup as [Hq Hdup].
    destruct (decide (_id q = _id p)) as [Heq|Hne].
    + apply elem_of_cons in Hp as [->|Hp]; [done|].
      exfalso. apply Hq. rewrite Heq. by apply list_elem_of_fmap_2.
    + apply elem_of_cons in Hp as [->|Hp]; [done | by apply IH].
Qed.

(** When no two podcasts share an identifier, none do after an update, a
    view increment, a deletion, or a creation under an identifier that was
    free. *)
Theorem mutations_keep_ids_unique who s s' :
  unique_ids s →
  (∀ args, updatePodcast args who s = Done () s' → unique_ids s') ∧
  (∀ id, updatePodcastViews id who s = Done () s' → unique_ids s') ∧
  (∀ id img aud, deletePodcast id img aud who s = Done () s' → unique_ids s') ∧
  (∀ newId args,
     getPodcastById newId s = None →
     createPodcast newId args who s = Done newId s' → unique_ids s').
Proof.
  unfold unique_ids, getPodcastById. intros Hdup. split_and!.
  - intros args Hrun. apply updatePodcast_Done in Hrun as (? & ? & _ & _ & ->).
    simpl. by rewrite patch_doc_ids.
  - intros id Hrun. apply updatePodcastViews_Done in Hrun as (? & _ & ->).
    simpl. by rewrite patch_doc_ids.
  - intros id img aud Hrun. apply deletePodcast_Done in Hrun
      as (? & _ & _ & _ & _ & ->).
    simpl. by apply delete_doc_unique.
  - intros newId args Hfresh Hrun.
    apply createPodcast_Done in Hrun as (? & owner & ? & _ & _ & _ & ->).
    simpl. rewrite fmap_app. apply NoDup_app. split_and!; [done| |].
    + intros id Hid Hnew. apply list_elem_of_singleton in Hnew as ->.
      by apply (lookup_doc_fresh newId (podcasts s)).
    + apply NoDup_singleton.
Qed.

Lemma catalogue_unique_ids : unique_ids catalogue.
Proof.
  unfold unique_ids. apply (bool_decide_unpack _). by vm_compute.
Qed.

Lemma mutations_keep_ids_unique_witness :
  unique_ids
    (set_podcasts (podcasts catalogue ++ [new_podcast new_episode bob "p5"])
                  catalogue).
Proof.
  destruct (mutations_keep_ids_unique as_bob catalogue
              (set_podcasts
                 (podcasts catalogue ++ [new_podcast new_episode bob "p5"])
                 catalogue)
              catalogue_unique_ids) as (_ & _ & _ & Hcreate).
  exact (Hcreate "p5" new_episode eq_refl eq_refl).
Defined.

(** ** After a deletion *)

(** Once a podcast is deleted its identifier is dead: a get finds
    nothing, a view increment, a second deletion and an update throw
    "Podcast not found", and the similar-podcasts query for it is empty. *)
Theorem deleted_podcast_is_gone who who' s s' id img aud :
  deletePodcast id img aud who s = Done () s' →
  getPodcastById id s' = None ∧
  updatePodcastViews id who' s' = Thrown PodcastNotFound s' ∧
  (∀ img' aud', deletePodcast id img' aud' who' s' = Thrown PodcastNotFound s') ∧
  (∀ args ident,
     UpdatePodcastArgs.podcastId args = id →
     updatePodcast args (Some ident) s' = Thrown PodcastNotFound s') ∧
  getPodcastByVoiceType id s' = [].
Proof.
  intros Hrun. apply deletePodcast_Done in Hrun as (p & _ & _ & _ & _ & ->).
  set (s' := {| podcasts := delete_doc id (podcasts s); users := users s;
                storage := storage s ∖ {[img]} ∖ {[aud]} |}).
  assert (Hgone : lookup_doc id (podcasts s') = None)
    by apply lookup_doc_delete.
  split_and!.
  - exact Hgone.
  - by apply updatePodcastViews_missing.
  - intros img' aud'. by apply deletePodcast_missing.
  - intros args ident <-.
    unfold updatePodcast, bind, getUserIdentity, db_get, throw.
    by rewrite Hgone.
  - unfold getPodcastByVoiceType. rewrite Hgone.
    apply filter_no_match. by intros q _ [? _].
Qed.

Lemma deleted_podcast_is_gone_witness :
  getPodcastById "p1"
    {| podcasts := delete_doc "p1" (podcasts catalogue);
       users := users catalogue;
       storage := storage catalogue ∖ {["img_p1"]} ∖ {["aud_p1"]} |} = None.
Proof.
  apply (deleted_podcast_is_gone as_alice None catalogue _ "p1" "img_p1" "aud_p1").
  apply (deletePodcast_found as_alice catalogue "p1" "img_p1" "aud_p1" p1);
    [done | by apply catalogue_holds; listed.. | done].
Defined.

Lemma filter_filter_swap {A} (P Q : A → Prop)
    `{!∀ x, Decision (P x)} `{!∀ x, Decision (Q x)} (l : list A) :
  filter P (filter Q l) = filter Q (filter P l).
Proof.
  rewrite !list_filter_filter. apply list_filter_iff. intros x. tauto.
Qed.

(** A deleted podcast leaves every listing: the full listing, the
    listing of each category and of each author are those of before without
    the documents of the deleted identifier, in the same order, and no
    trending podcast carries that identifier. *)
Theorem deletePodcast_unlists who s s' id img aud :
  deletePodcast id img aud who s = Done () s' →
  getAllPodcasts s' = filter (λ p, _id p ≠ id) (getAllPodcasts s) ∧
  (∀ category,
     getPodcastByCategoryType category s'
       = filter (λ p, _id p ≠ id) (getPodcastByCategoryType category s)) ∧
  (∀ a,
     AuthorStats.podcasts (getPodcastByAuthorId a s')
       = filter (λ p, _id p ≠ id) (AuthorStats.podcasts (getPodcastByAuthorId a s))) ∧
  (∀ q, q ∈ getTrendingPodcasts s' → _id q ≠ id ∧ q ∈ podcasts s).
Proof.
  intros Hrun. apply deletePodcast_Done in Hrun as (p & _ & _ & _ & _ & ->).
  unfold getAllPodcasts, getPodcastByCategoryType, getPodcastByAuthorId,
    getTrendingPodcasts, delete_doc; simpl.
  split_and!.
  - by rewrite filter_reverse.
  - intros category. apply filter_filter_swap.
  - intros a. apply filter_filter_swap.
  - intros q Hq.
    assert (Hin : q ∈ filter (λ p, _id p ≠ id) (podcasts s)).
    { rewrite <- (js_sort_perm by_views_desc).
      eapply elem_of_sublist; [exact Hq | apply sublist_take]. }
    apply list_elem_of_filter in Hin. tauto.
Qed.

Lemma deletePodcast_unlists_witness :
  getAllPodcasts
    {| podcasts := delete_doc "p1" (podcasts catalogue);
       users := users catalogue;
       storage := storage catalogue ∖ {["img_p1"]} ∖ {["aud_p1"]} |}
  = filter (λ p, _id p ≠ "p1") (getAllPodcasts catalogue).
Proof.
  apply (deletePodcast_unlists as_alice catalogue _ "p1" "img_p1" "aud_p1").
  apply (deletePodcast_found as_alice catalogue "p1" "img_p1" "aud_p1" p1);
    [done | by apply catalogue_holds; listed.. | done].
Defined.

(** ** Updates and increments in a row *)

Lemma patch_fields_twice u p :
  patch_fields u (patch_fields u p) = patch_fields u p.
Proof.
  destruct u as [t d au iu vp ip vt ct vw du asid isid].
  unfold patch_fields; simpl.
  by destruct t, d, au, iu, vp, ip, vt, ct, vw, du, asid, isid.
Qed.

Lemma patch_doc_twice id u tbl :
  patch_doc id u (patch_doc id u tbl) = patch_doc id u tbl.
Proof.
  unfold patch_doc. induction tbl as [|q tbl IH]; csimpl; [done|].
  rewrite IH. f_equal.
  destruct (decide (_id q = id)) as [Heq|Hne].
  - rewrite patch_fields_id, decide_True by done. apply patch_fields_twice.
  - by rewrite decide_False.
Qed.

(** Submitting the same update a second time changes nothing: the second
    call succeeds, whoever the authenticated caller is, and leaves the store
    the first call produced. *)
Theorem updatePodcast_twice who s s' args ident :
  updatePodcast args who s = Done () s' →
  updatePodcast args (Some ident) s' = Done () s'.
Proof.
  intros Hrun. apply updatePodcast_Done in Hrun as (? & p & _ & Hp & ->).
  set (id := UpdatePodcastArgs.podcastId args) in *.
  rewrite (updatePodcast_found ident _ args (patch_fields (updates_of_args args) p)).
  - simpl. fold id. by rewrite patch_doc_twice.
  - simpl. fold id. by rewrite lookup_doc_patch, Hp.
Qed.

Lemma updatePodcast_twice_witness :
  updatePodcast retitle_p1 as_alice
    (set_podcasts (patch_doc "p1" (updates_of_args retitle_p1) (podcasts catalogue))
                  catalogue)
  = Done ()
      (set_podcasts (patch_doc "p1" (updates_of_args retitle_p1) (podcasts catalogue))
                    catalogue).
Proof.
  exact (updatePodcast_twice as_bob catalogue _ retitle_p1
           (mkIdentity "alice@example.org") eq_refl).
Defined.

Lemma same_except_views_refl p : same_except_views p p.
Proof. by repeat split. Qed.

Lemma same_except_views_trans p q r :
  same_except_views p q → same_except_views q r → same_except_views p r.
Proof.
  unfold same_except_views. intros Hpq Hqr.
  destruct_and!. split_and!; congruence.
Qed.

(** View increments add up as long as the counter stays within 2^53: [n]
    increments of an existing podcast whose counter is at least -2^53 and at
    most 2^53 - n, one after the other, all succeed and leave the counter
    [n] higher, its other fields being what they were. *)
Theorem updatePodcastViews_repeatedly n who s id p :
  getPodcastById id s = Some p →
  - 2 ^ 53 ≤ views p →
  views p + Z.of_nat n ≤ 2 ^ 53 →
  ∃ s' p',
    repeatedly n (updatePodcastViews id) who s = Done () s' ∧
    getPodcastById id s' = Some p' ∧
    views p' = views p + Z.of_nat n ∧
    same_except_views p p'.
Proof.
  unfold getPodcastById. revert s p.
  induction n as [|n IH]; intros s p Hp Hlow Hhigh.
  - exists s, p. split_and!; [done | done | lia | apply same_except_views_refl].
  - assert (Hnext : js_add (views p) 1 = views p + 1)
      by (apply js_add_exact; lia).
    destruct (IH (set_podcasts
                    (patch_doc id (views_patch (js_add (views p) 1)) (podcasts s)) s)
                 (patch_fields (views_patch (js_add (views p) 1)) p))
      as (s' & p' & Hrun & Hp' & Hviews & Hsame).
    { simpl. by rewrite lookup_doc_patch, Hp. }
    { simpl. lia. }
    { simpl. lia. }
    exists s', p'. split_and!; [|done| |].
    + change (repeatedly (S n) (updatePodcastViews id) who s)
        with (bind (updatePodcastViews id)
                (λ _, repeatedly n (updatePodcastViews id)) who s).
      unfold bind at 1. by rewrite (updatePodcastViews_found who s id p Hp).
    + rewrite Hviews. simpl. lia.
    + eapply same_except_views_trans; [|exact Hsame]. by repeat split.
Qed.

Lemma updatePodcastViews_repeatedly_witness :
  ∃ s' p',
    repeatedly 3 (updatePodcastViews "p2") None catalogue = Done () s' ∧
    getPodcastById "p2" s' = Some p' ∧
    views p' = 5 + Z.of_nat 3 ∧
    same_except_views p2 p'.
Proof.
  apply (updatePodcastViews_repeatedly 3 None catalogue "p2" p2 eq_refl);
    simpl; lia.
Defined.

(** ** Listener totals *)

Lemma patch_doc_absent id u tbl :
  id ∉ _id <$> tbl → patch_doc id u tbl = tbl.
Proof.
  unfold patch_doc. induction tbl as [|q tbl IH]; csimpl; intros Hid; [done|].
  apply not_elem_of_cons in Hid as [Hne Hid].
  rewrite decide_False by done. by rewrite IH.
Qed.

Lemma sum_views_cons p l : sum_views (p :: l) = views p + sum_views l.
Proof. done. Qed.

Lemma sum_views_after_increment a id v tbl p :
  NoDup (_id <$> tbl) →
  lookup_doc id tbl = Some p →
  sum_views (filter (λ q, authorId q = a) (patch_doc id (views_patch v) tbl))
    = sum_views (filter (λ q, authorId q = a) tbl)
      + (if decide (authorId p = a) then v - views p else 0).
Proof.
  induction tbl as [|q tbl IH]; csimpl; intros Hdup Hp; [done|].
  apply NoDup_cons in Hdup as [Hq Hdup].
  destruct (decide (_id q = id)) as [Heq|Hne].
  - injection Hp as ->. subst id.
    fold (patch_doc (_id p) (views_patch v) tbl).
    rewrite patch_doc_absent by done.
    rewrite !filter_cons. simpl.
    destruct (decide (authorId p = a)); [|lia].
    rewrite !sum_views_cons. simpl. lia.
  - fold (patch_doc id (views_patch v) tbl).
    rewrite !filter_cons.
    destruct (decide (authorId q = a)).
    + rewrite !sum_views_cons, IH by done. lia.
    + by apply IH.
Qed.

Lemma sum_views_bounds (l : list Podcast) :
  (∀ p, p ∈ l → 0 ≤ views p) →
  0 ≤ sum_views l ∧ ∀ p, p ∈ l → views p ≤ sum_views l.
Proof.
  induction l as [|q l IH]; intros Hpos.
  - split; [done|]. intros p Hp. by apply not_elem_of_nil in Hp.
  - destruct IH as [Hsum Hmax]; [intros p Hp; apply Hpos; by right|].
    assert (0 ≤ views q) by (apply Hpos; left).
    rewrite sum_views_cons. split; [lia|].
    intros p Hp. apply elem_of_cons in Hp as [->|Hp]; [lia|].
    specialize (Hmax p Hp). lia.
Qed.

Lemma patch_doc_elem id u tbl x :
  x ∈ patch_doc id u tbl → ∃ q, q ∈ tbl ∧ (x = q ∨ x = patch_fields u q).
Proof.
  unfold patch_doc. intros Hx.
  apply list_elem_of_fmap in Hx as (q & -> & Hq). exists q. split; [done|].
  destruct (decide (_id q = id)); [by right | by left].
Qed.

Lemma filter_patch_other a id v tbl p :
  NoDup (_id <$> tbl) →
  lookup_doc id tbl = Some p →
  authorId p ≠ a →
  filter (λ q, authorId q = a) (patch_doc id (views_patch v) tbl)
    = filter (λ q, authorId q = a) tbl.
Proof.
  induction tbl as [|q tbl IH]; csimpl; intros Hdup Hp Ha; [done|].
  apply NoDup_cons in Hdup as [Hq Hdup].
  destruct (decide (_id q = id)) as [Heq|Hne].
  - injection Hp as ->. subst id.
    fold (patch_doc (_id p) (views_patch v) tbl).
    rewrite patch_doc_absent by done.
    by rewrite !filter_cons_False by done.
  - fold (patch_doc id (views_patch v) tbl).
    rewrite !filter_cons, IH by done. done.
Qed.

(** With unique identifiers, and as long as the views of the author's
    podcasts are non-negative and sum to less than 2^53, a view increment
    raises the listener total of the podcast's author by exactly one; it
    leaves the total of every other author as it was. *)
Theorem updatePodcastViews_author_total who s s' id p :
  unique_ids s →
  getPodcastById id s = Some p →
  (∀ q, q ∈ podcasts s → authorId q = authorId p → 0 ≤ views q) →
  sum_views (AuthorStats.podcasts (getPodcastByAuthorId (authorId p) s)) < 2 ^ 53 →
  updatePodcastViews id who s = Done () s' →
  AuthorStats.listeners (getPodcastByAuthorId (authorId p) s')
    = AuthorStats.listeners (getPodcastByAuthorId (authorId p) s) + 1 ∧
  (∀ a, a ≠ authorId p →
        AuthorStats.listeners (getPodcastByAuthorId a s')
          = AuthorStats.listeners (getPodcastByAuthorId a s)).
Proof.
  unfold unique_ids, getPodcastById. intros Hdup Hp Hpos Hsum Hrun.
  rewrite (updatePodcastViews_found who s id p Hp) in Hrun.
  injection Hrun as <-.
  unfold getPodcastByAuthorId in *;
    cbn [AuthorStats.podcasts AuthorStats.listeners set_podcasts podcasts] in *.
  set (mine := filter (λ q, authorId q = authorId p) (podcasts s)) in *.
  assert (Hmine : ∀ q, q ∈ mine → 0 ≤ views q).
  { intros q Hq. apply list_elem_of_filter in Hq as [Ha Hq]. by apply Hpos. }
  assert (Hin : p ∈ mine).
  { apply list_elem_of_filter. split; [done|].
    by apply (lookup_doc_Some id). }
  destruct (sum_views_bounds mine Hmine) as [_ Hmax].
  pose proof (Hmine p Hin) as Hp0. pose proof (Hmax p Hin) as Hpmax.
  assert (Hnext : js_add (views p) 1 = views p + 1)
    by (apply js_add_exact; lia).
  split.
  - rewrite (foldl_views_sum mine) by (done || lia).
    pose proof (sum_views_after_increment (authorId p) id
                  (js_add (views p) 1) (podcasts s) p Hdup Hp) as Hafter.
    rewrite decide_True in Hafter by done. fold mine in Hafter.
    rewrite foldl_views_sum; [lia | lia | | lia].
    intros x Hx. apply list_elem_of_filter in Hx as [Ha Hx].
    apply patch_doc_elem in Hx as (q & Hq & [->| ->]).
    + by apply Hpos.
    + simpl. lia.
  - intros a Ha. by rewrite (filter_patch_other a id _ _ p Hdup Hp).
Qed.

Lemma updatePodcastViews_author_total_witness :
  AuthorStats.listeners
    (getPodcastByAuthorId "clerk_alice"
       (set_podcasts
          (patch_doc "p1" (views_patch (js_add 3 1)) (podcasts catalogue))
          catalogue))
  = AuthorStats.listeners (getPodcastByAuthorId "clerk_alice" catalogue) + 1.
Proof.
  apply (updatePodcastViews_author_total None catalogue _ "p1" p1
           catalogue_unique_ids eq_refl); [|by vm_compute|reflexivity].
  intros q Hq _. simpl in Hq.
  repeat (apply elem_of_cons in Hq as [->|Hq]; [by vm_compute|]).
  by apply not_elem_of_nil in Hq.
Defined.

Lemma foldl_views_above (l : list Podcast) (start : Z) :
  0 ≤ start →
  (∀ p, p ∈ l → 0 ≤ views p) →
  start ≤ foldl (λ sum podcast, js_add sum (views podcast)) start l ∧
  ∀ p, p ∈ l →
       views p ≤ foldl (λ sum podcast, js_add sum (views podcast)) start l.
Proof.
  revert start. induction l as [|q l IH]; intros start Hstart Hpos.
  - split; [done|]. intros p Hp. by apply not_elem_of_nil in Hp.
  - assert (Hq : 0 ≤ views q) by (apply Hpos; left).
    destruct (js_add_above start (views q) Hstart Hq) as [Hkeep Hnew].
    destruct (IH (js_add start (views q))) as [Hacc Hmax];
      [lia | intros p Hp; apply Hpos; by right |].
    cbn [foldl]. split; [lia|].
    intros p Hp. apply elem_of_cons in Hp as [->|Hp]; [lia | by apply Hmax].
Qed.

(** When no view counter of the table is negative, the listener total of
    an author is not negative and is at least the counter of each of the
    author's podcasts. *)
Theorem getPodcastByAuthorId_bounds a s :
  (∀ p, p ∈ podcasts s → 0 ≤ views p) →
  0 ≤ AuthorStats.listeners (getPodcastByAuthorId a s) ∧
  (∀ p, p ∈ AuthorStats.podcasts (getPodcastByAuthorId a s) →
        views p ≤ AuthorStats.listeners (getPodcastByAuthorId a s)).
Proof.
  intros Hpos.
  unfold getPodcastByAuthorId; cbn [AuthorStats.podcasts AuthorStats.listeners].
  apply foldl_views_above; [done|]. intros p Hp.
  apply list_elem_of_filter in Hp as [_ Hp]. by apply Hpos.
Qed.

Lemma getPodcastByAuthorId_bounds_witness :
  0 ≤ AuthorStats.listeners (getPodcastByAuthorId "clerk_alice" catalogue) ∧
  (∀ p, p ∈ AuthorStats.podcasts (getPodcastByAuthorId "clerk_alice" catalogue) →
        views p ≤ AuthorStats.listeners (getPodcastByAuthorId "clerk_alice" catalogue)).
Proof.
  apply (getPodcastByAuthorId_bounds "clerk_alice" catalogue).
  intros p Hp. simpl in Hp.
  repeat (apply elem_of_cons in Hp as [->|Hp]; [by vm_compute|]).
  by apply not_elem_of_nil in Hp.
Defined.

(** ** Similar podcasts, both ways *)

(** With unique identifiers, being similar is mutual: a podcast listed as
    similar to a podcast of the table lists that podcast as similar to
    itself. For an identifier with no document the list is empty. *)
Theorem getPodcastByVoiceType_mutual s p q :
  unique_ids s →
  q ∈ podcasts s →
  p ∈ getPodcastByVoiceType (_id q) s →
  q ∈ getPodcastByVoiceType (_id p) s.
Proof.
  unfold unique_ids, getPodcastByVoiceType. intros Hdup Hq Hp.
  apply list_elem_of_filter in Hp as [[Hvoice Hne] Hp].
  rewrite (lookup_doc_unique _ q Hdup Hq) in Hvoice.
  apply list_elem_of_filter. split; [|done].
  rewrite (lookup_doc_unique _ p Hdup Hp). simpl in *.
  split; [congruence | done].
Qed.

Lemma getPodcastByVoiceType_mutual_witness :
  p2 ∈ getPodcastByVoiceType (_id p1) catalogue.
Proof.
  apply (getPodcastByVoiceType_mutual catalogue p1 p2 catalogue_unique_ids).
  - right. left.
  - apply list_elem_of_filter. split; [by split | by left].
Defined.

(** The similar-podcasts query for an identifier with no document returns
    nothing, whatever the table holds. *)
Theorem getPodcastByVoiceType_unknown id s :
  getPodcastById id s = None → getPodcastByVoiceType id s = [].
Proof.
  unfold getPodcastById, getPodcastByVoiceType. intros ->.
  apply filter_no_match. by intros q _ [? _].
Qed.

Lemma getPodcastByVoiceType_unknown_witness :
  getPodcastByVoiceType "nobody" catalogue = [].
Proof. exact (getPodcastByVoiceType_unknown "nobody" catalogue eq_refl). Defined.

(** ** The caller's podcasts *)

(** [getUserPodcasts] throws "User not authenticated" without an identity
    and "User not found" when no user has the caller's e-mail; when it
    answers, the store is untouched and the answer is, in table order, the
    podcasts whose [user] field is the identifier of the first user of the
    table with the caller's e-mail. *)
Theorem getUserPodcasts_answers who s :
  (who = None → getUserPodcasts who s = Thrown UserNotAuthenticated s) ∧
  (∀ ident,
     who = Some ident →
     (∀ u, u ∈ users s → email u ≠ identity_email ident) →
     getUserPodcasts who s = Thrown UserNotFound s) ∧
  (∀ mine s',
     getUserPodcasts who s = Done mine s' →
     s' = s ∧
     ∃ ident owner others,
       who = Some ident ∧
       filter (λ u, email u = identity_email ident) (users s) = owner :: others ∧
       owner ∈ users s ∧
       email owner = identity_email ident ∧
       mine = filter (λ p, user p = user_id owner) (podcasts s)).
Proof.
  unfold getUserPodcasts, bind, getUserIdentity, throw. split_and!.
  - by intros ->.
  - intros ident -> Hnone. by rewrite filter_no_match.
  - intros mine s'. destruct who as [ident|]; [|done].
    destruct (filter _ (users s)) as [|owner others] eqn:Hu; [done|].
    intros [= <- <-]. split; [done|]. exists ident, owner, others.
    assert (Hin : owner ∈ filter (λ u, email u = identity_email ident) (users s))
      by (rewrite Hu; left).
    apply list_elem_of_filter in Hin as [Hmail Hin]. done.
Qed.

Lemma getUserPodcasts_answers_witness :
  getUserPodcasts None catalogue = Thrown UserNotAuthenticated catalogue ∧
  getUserPodcasts as_carol catalogue = Thrown UserNotFound catalogue ∧
  twins = twins ∧
  ∃ ident owner others,
    as_alice = Some ident ∧
    filter (λ u, email u = identity_email ident) (users twins) = owner :: others ∧
    owner ∈ users twins ∧
    email owner = identity_email ident ∧
    [p1] = filter (λ p, user p = user_id owner) (podcasts twins).
Proof.
  destruct (getUserPodcasts_answers None catalogue) as (Hnone & _ & _).
  destruct (getUserPodcasts_answers as_carol catalogue) as (_ & Hcarol & _).
  destruct (getUserPodcasts_answers as_alice twins) as (_ & _ & Halice).
  split_and!.
  - exact (Hnone eq_refl).
  - apply (Hcarol _ eq_refl). intros u Hu. simpl in Hu.
    repeat (apply elem_of_cons in Hu as [->|Hu]; [discriminate|]).
    by apply not_elem_of_nil in Hu.
  - exact (proj1 (Halice [p1] twins eq_refl)).
  - exact (proj2 (Halice [p1] twins eq_refl)).
Defined.

(** Two users with Alice's e-mail: the caller's podcasts are those of the
    first of them. *)
Example getUserPodcasts_twins :
  getUserPodcasts as_alice twins = Done [p1] twins.
Proof. reflexivity. Qed.

(** ** Ties on the trending list *)

Lemma sort_insert_keeps_ties k x l :
  filter (λ p, views p = k) (sort_insert by_views_desc x l)
    = filter (λ p, views p = k) (x :: l).
Proof.
  induction l as [|y l IH]; simpl; [done|].
  unfold by_views_desc at 1.
  destruct (views y - views x <=? 0) eqn:Hcmp; [done|].
  apply Z.leb_gt in Hcmp.
  rewrite (filter_cons _ y), IH, !(filter_cons _ x), (filter_cons _ y).
  destruct (decide (views y = k)), (decide (views x = k)); try done. lia.
Qed.

Lemma js_sort_keeps_ties k l :
  filter (λ p, views p = k) (js_sort by_views_desc l)
    = filter (λ p, views p = k) l.
Proof.
  unfold js_sort. induction l as [|x l IH]; simpl; [done|].
  by rewrite sort_insert_keeps_ties, !filter_cons, IH.
Qed.

(** Podcasts with the same number of views stay in table order on the
    trending list: for every count [k], the trending podcasts with [k] views
    are, in order, the first podcasts of the table with [k] views. *)
Theorem getTrendingPodcasts_ties s k :
  filter (λ p, views p = k) (getTrendingPodcasts s)
    `prefix_of` filter (λ p, views p = k) (podcasts s).
Proof.
  unfold getTrendingPodcasts.
  rewrite <- (js_sort_keeps_ties k (podcasts s)).
  rewrite <- (take_drop 8 (js_sort by_views_desc (podcasts s))) at 2.
  rewrite filter_app. by apply prefix_app_r.
Qed.

(** ** What the Discover page shows *)

Lemma js_or_empty_r a : js_or a "" = a.
Proof. by destruct a. Qed.

Lemma category_section_Some s label sec :
  label ∈ podcastCategories →
  category_section (fetchCategoryPodcasts s) label = Some sec ↔
    getPodcastByCategoryType label s ≠ [] ∧
    sec = {| section_key := label;
             heading := capitalize label +:+ " Podcasts";
             cards := card <$> (with_image_default
                                  <$> getPodcastByCategoryType label s) |}.
Proof.
  intros Hlabel. unfold category_section.
  rewrite fetchCategoryPodcasts_lookup, decide_True by done.
  destruct (getPodcastByCategoryType label s) as [|p found]; csimpl.
  - split; [done | by intros [? _]].
  - split; [by intros [= <-] | by intros [_ ->]].
Qed.

Lemma sections_of_loaded s :
  sections_of (Discover_loaded s)
    = omap (category_section (fetchCategoryPodcasts s)) podcastCategories.
Proof. by rewrite Discover_loaded_page. Qed.

Lemma section_keys_filter s (labels : list string) :
  (∀ label, label ∈ labels → label ∈ podcastCategories) →
  section_key <$> omap (category_section (fetchCategoryPodcasts s)) labels
    = filter (λ label, getPodcastByCategoryType label s ≠ []) labels.
Proof.
  induction labels as [|label labels IH]; intros Hlabels; [done|].
  assert (Hhere : label ∈ podcastCategories) by (apply Hlabels; left).
  assert (Hrest : ∀ c, c ∈ labels → c ∈ podcastCategories)
    by (intros c Hc; apply Hlabels; by right).
  rewrite filter_cons. csimpl.
  destruct (category_section (fetchCategoryPodcasts s) label) as [sec|] eqn:Hsec.
  - apply category_section_Some in Hsec as [Hmatch ->]; [|done].
    rewrite decide_True by done. csimpl. by rewrite IH.
  - destruct (decide (getPodcastByCategoryType label s ≠ [])) as [Hmatch|_];
      [|by apply IH].
    exfalso.
    assert (Hsome : is_Some (category_section (fetchCategoryPodcasts s) label)).
    { eexists. apply category_section_Some; [done|]. by split. }
    rewrite Hsec in Hsome. by destruct Hsome.
Qed.

(** The sections of the loaded page are, in the order of the label list,
    exactly the labels for which the category query returns a podcast: one
    section per such label, none for the others. *)
Theorem Discover_sections_follow_labels s :
  section_key <$> sections_of (Discover_loaded s)
    = filter (λ label, getPodcastByCategoryType label s ≠ []) podcastCategories.
Proof. rewrite sections_of_loaded. by apply section_keys_filter. Qed.

(** A section of the loaded page is headed by its capitalised label, and
    its cards are, in table order, those of the podcasts whose
    [categoryType] is the label, compared exactly; each card shows the
    podcast's identifier, title and description, and always has an image
    URL, the empty string standing in for a missing one. *)
Theorem Discover_section_cards s sec :
  sec ∈ sections_of (Discover_loaded s) →
  section_key sec ∈ podcastCategories ∧
  heading sec = capitalize (section_key sec) +:+ " Podcasts" ∧
  length (cards sec) = length (getPodcastByCategoryType (section_key sec) s) ∧
  (∀ c, c ∈ cards sec →
     ∃ p, p ∈ podcasts s ∧ categoryType p = section_key sec ∧
          card_key c = _id p ∧ podcastId c = _id p ∧
          title c = podcastTitle p ∧ description c = podcastDescription p ∧
          imgUrl c = Some (default "" (imageUrl p))).
Proof.
  rewrite sections_of_loaded. intros Hsec.
  apply list_elem_of_omap in Hsec as (label & Hlabel & Hsec).
  apply category_section_Some in Hsec as [_ ->]; [|done]. simpl.
  split_and!; [done | done | by rewrite !length_fmap |].
  intros c Hc.
  apply list_elem_of_fmap in Hc as (p' & -> & Hp').
  apply list_elem_of_fmap in Hp' as (p & -> & Hp).
  apply list_elem_of_filter in Hp as [Hcat Hp].
  exists p. simpl. by rewrite js_or_empty_r.
Qed.

Lemma Discover_section_cards_witness :
  ∃ sec,
    heading sec = "Technology Podcasts" ∧
    length (cards sec) = length (getPodcastByCategoryType "technology" catalogue).
Proof.
  pose (sec := {| section_key := "technology";
                  heading := "Technology Podcasts";
                  cards := card <$> (with_image_default <$> [p1; p3]) |}).
  exists sec.
  destruct (Discover_section_cards catalogue sec) as (_ & Hhead & Hlen & _).
  - rewrite sections_of_loaded. apply list_elem_of_omap.
    exists "technology". split; [unfold podcastCategories; right; left | done].
  - split; [exact Hhead | exact Hlen].
Defined.

(** Every podcast whose [categoryType] is one of the labels has its card in
    the section of that label. *)
Theorem Discover_shows_listed s p :
  p ∈ podcasts s →
  categoryType p ∈ podcastCategories →
  ∃ sec, sec ∈ sections_of (Discover_loaded s) ∧
         section_key sec = categoryType p ∧
         card (with_image_default p) ∈ cards sec.
Proof.
  intros Hp Hlabel. rewrite sections_of_loaded.
  assert (Hin : p ∈ getPodcastByCategoryType (categoryType p) s).
  { unfold getPodcastByCategoryType. by apply list_elem_of_filter. }
  eexists. split; [|split].
  - apply list_elem_of_omap. exists (categoryType p). split; [done|].
    apply category_section_Some; [done|]. split; [|done].
    intros Hnil. rewrite Hnil in Hin. by apply not_elem_of_nil in Hin.
  - done.
  - simpl. by do 2 apply list_elem_of_fmap_2.
Qed.

Lemma Discover_shows_listed_witness :
  ∃ sec, sec ∈ sections_of (Discover_loaded catalogue) ∧
         section_key sec = categoryType p2 ∧
         card (with_image_default p2) ∈ cards sec.
Proof.
  apply (Discover_shows_listed catalogue p2).
  - right. left.
  - unfold podcastCategories. simpl. do 2 right. left.
Defined.

(** With unique identifiers, a podcast whose [categoryType] is not one of
    the labels as written (a capitalised "Technology", say) has no card in
    any section of the page. *)
Theorem Discover_hides_unlisted s p :
  unique_ids s →
  p ∈ podcasts s →
  categoryType p ∉ podcastCategories →
  ∀ sec c, sec ∈ sections_of (Discover_loaded s) → c ∈ cards sec →
           card_key c ≠ _id p.
Proof.
  unfold unique_ids. intros Hdup Hp Hunlisted sec c Hsec Hc Hkey.
  rewrite sections_of_loaded in Hsec.
  apply list_elem_of_omap in Hsec as (label & Hlabel & Hsec).
  apply category_section_Some in Hsec as [_ ->]; [|done]. simpl in Hc.
  apply list_elem_of_fmap in Hc as (q' & -> & Hq').
  apply list_elem_of_fmap in Hq' as (q & -> & Hq).
  apply list_elem_of_filter in Hq as [Hcat Hq]. simpl in Hkey.
  assert (q = p) as ->.
  { pose proof (lookup_doc_unique _ q Hdup Hq) as Hlq.
    pose proof (lookup_doc_unique _ p Hdup Hp) as Hlp.
    rewrite Hkey, Hlp in Hlq. by injection Hlq. }
  apply Hunlisted. by rewrite Hcat.
Qed.

Lemma Discover_hides_unlisted_witness :
  sections_of (Discover_loaded mislabelled)
    = [{| section_key := "technology";
          heading := "Technology Podcasts";
          cards := [card (with_image_default p1)] |}] ∧
  card_key (card (with_image_default p1)) ≠ "p9".
Proof.
  assert (Hsections :
    sections_of (Discover_loaded mislabelled)
      = [{| section_key := "technology";
            heading := "Technology Podcasts";
            cards := [card (with_image_default p1)] |}]).
  { rewrite sections_of_loaded. by vm_compute. }
  split; [exact Hsections|].
  apply (Discover_hides_unlisted mislabelled p9) with
    (sec := {| section_key := "technology";
               heading := "Technology Podcasts";
               cards := [card (with_image_default p1)] |}).
  - unfold unique_ids. apply (bool_decide_unpack _). by vm_compute.
  - right. left.
  - apply (bool_decide_unpack _). by vm_compute.
  - rewrite Hsections. left.
  - left.
Defined.

(** The page shows the spinner exactly while the trending query has no
    result yet or some label has no entry in the category mapping; so it
    shows it whatever the trending result as long as the mapping is empty,
    and never once both are loaded, an empty table included. *)
Theorem Discover_spinner trendingPodcasts categoryPodcasts s :
  (Discover trendingPodcasts categoryPodcasts = LoaderSpinner ↔
     trendingPodcasts = None ∨
     ∃ label, label ∈ podcastCategories ∧ categoryPodcasts !! label = None) ∧
  Discover trendingPodcasts ∅ = LoaderSpinner ∧
  Discover_loaded s ≠ LoaderSpinner.
Proof.
  split_and!.
  - unfold Discover. destruct trendingPodcasts as [trending|]; [|naive_solver].
    destruct (existsb _ podcastCategories) eqn:Hloading.
    + split; [intros _|done]. right.
      apply existsb_exists in Hloading as (label & Hin & Hnone).
      exists label. split; [by apply list_elem_of_In|].
      by apply bool_decide_eq_true in Hnone.
    + split; [done|]. intros [Hnone|(label & Hin & Hnone)]; [done|].
      exfalso. apply Bool.not_true_iff_false in Hloading. apply Hloading.
      apply existsb_exists. exists label.
      split; [by apply list_elem_of_In | by apply bool_decide_eq_true].
  - by destruct trendingPodcasts.
  - by rewrite Discover_loaded_page.
Qed.

(** ** Capitalised labels *)

Lemma toUpperCase_twice c : toUpperCase (toUpperCase c) = toUpperCase c.
Proof. by destruct c as [[] [] [] [] [] [] [] []]. Qed.

Lemma toLowerCase_twice c : toLowerCase (toLowerCase c) = toLowerCase c.
Proof. by destruct c as [[] [] [] [] [] [] [] []]. Qed.

Lemma toLowerCase_toUpperCase c : toLowerCase (toUpperCase c) = toLowerCase c.
Proof. by destruct c as [[] [] [] [] [] [] [] []]. Qed.

Lemma toUpperCase_ascii c :
  (nat_of_ascii c <? 128)%nat = true →
  (nat_of_ascii (toUpperCase c) <? 128)%nat = true.
Proof. by destruct c as [[] [] [] [] [] [] [] []]. Qed.

Lemma toLowerCase_ascii c :
  (nat_of_ascii c <? 128)%nat = true →
  (nat_of_ascii (toLowerCase c) <? 128)%nat = true.
Proof. by destruct c as [[] [] [] [] [] [] [] []]. Qed.

Lemma string_map_length f s : String.length (string_map f s) = String.length s.
Proof. induction s as [|c s IH]; simpl; [done | by rewrite IH]. Qed.

Lemma string_map_toLowerCase_twice s :
  string_map toLowerCase (string_map toLowerCase s) = string_map toLowerCase s.
Proof.
  induction s as [|c s IH]; simpl; [done|].
  by rewrite toLowerCase_twice, IH.
Qed.

Lemma string_map_toLowerCase_ascii s :
  ascii_only s = true → ascii_only (string_map toLowerCase s) = true.
Proof.
  induction s as [|c s IH]; simpl; [done|].
  intros [Hc Hs]%andb_prop. by rewrite toLowerCase_ascii, IH.
Qed.

(** On ASCII text [capitalize] keeps the length, gives ASCII text, does
    nothing when applied a second time, and only changes the case of
    letters: lowercased, the result and the argument are equal. *)
Theorem capitalize_ascii str :
  ascii_only str = true →
  String.length (capitalize str) = String.length str ∧
  ascii_only (capitalize str) = true ∧
  capitalize (capitalize str) = capitalize str ∧
  string_map toLowerCase (capitalize str) = string_map toLowerCase str.
Proof.
  destruct str as [|c rest]; [done|]. simpl.
  intros [Hc Hrest]%andb_prop. split_and!.
  - by rewrite string_map_length.
  - by rewrite toUpperCase_ascii, string_map_toLowerCase_ascii.
  - by rewrite toUpperCase_twice, string_map_toLowerCase_twice.
  - by rewrite toLowerCase_toUpperCase, string_map_toLowerCase_twice.
Qed.

Lemma capitalize_ascii_witness :
  String.length (capitalize "mental HEALTH") = String.length "mental HEALTH" ∧
  ascii_only (capitalize "mental HEALTH") = true ∧
  capitalize (capitalize "mental HEALTH") = capitalize "mental HEALTH" ∧
  string_map toLowerCase (capitalize "mental HEALTH")
    = string_map toLowerCase "mental HEALTH".
Proof. exact (capitalize_ascii "mental HEALTH" eq_refl). Defined.

Example capitalize_labels :
  capitalize <$> podcastCategories
    = ["Business"; "Technology"; "Comedy"; "Education"; "Hobbies";
       "Government"; "Mental health"; "Family"; "Music"; "Politics";
       "Spirituality"; "Culture"; "Arts"] ∧
  capitalize "mental HEALTH" = "Mental health" ∧
  capitalize "" = "".
Proof. by vm_compute. Qed.

(** ** Creating, then deleting *)

Lemma delete_doc_absent id tbl : id ∉ _id <$> tbl → delete_doc id tbl = tbl.
Proof.
  unfold delete_doc. induction tbl as [|q tbl IH]; csimpl; intros Hid; [done|].
  apply not_elem_of_cons in Hid as [Hne Hid].
  rewrite filter_cons_True by done. by rewrite IH.
Qed.

(** Deleting a podcast right after it was created under a free identifier,
    with two distinct storage references the file storage holds, gives back
    the table of before the creation; the users are untouched and the file
    storage only lost the two references passed to the deletion. *)
Theorem createPodcast_then_deletePodcast who who' s s1 newId args img aud :
  getPodcastById newId s = None →
  img ∈ storage s → aud ∈ storage s → img ≠ aud →
  createPodcast newId args who s = Done newId s1 →
  ∃ s2, deletePodcast newId img aud who' s1 = Done () s2 ∧
        podcasts s2 = podcasts s ∧ users s2 = users s ∧
        storage s2 = storage s ∖ {[img]} ∖ {[aud]}.
Proof.
  unfold getPodcastById. intros Hfresh Himg Haud Hne Hrun.
  apply createPodcast_Done in Hrun as (ident & owner & others & _ & _ & _ & ->).
  eexists. split.
  - apply (deletePodcast_found who' _ newId img aud (new_podcast args owner newId));
      [|done..].
    simpl. rewrite lookup_doc_snoc, Hfresh. simpl. by rewrite decide_True.
  - simpl. split; [|done].
    unfold delete_doc. rewrite filter_app, filter_cons_False by (simpl; tauto).
    rewrite filter_nil, app_nil_r.
    apply delete_doc_absent. by apply lookup_doc_fresh.
Qed.

Lemma createPodcast_then_deletePodcast_witness :
  ∃ s2,
    deletePodcast "p5" "img_p5" "aud_p5" None
      (set_podcasts (podcasts uploaded ++ [new_podcast new_episode bob "p5"])
                    uploaded) = Done () s2 ∧
    podcasts s2 = podcasts uploaded ∧ users s2 = users uploaded ∧
    storage s2 = storage uploaded ∖ {["img_p5"]} ∖ {["aud_p5"]}.
Proof.
  assert (Hheld : ∀ file, file ∈ ["img_p5"; "aud_p5"] → file ∈ storage uploaded).
  { intros file Hfile. simpl. apply elem_of_union. right.
    rewrite elem_of_union, !elem_of_singleton.
    repeat (apply elem_of_cons in Hfile as [->|Hfile]; [tauto|]).
    by apply not_elem_of_nil in Hfile. }
  apply (createPodcast_then_deletePodcast as_bob None uploaded _ "p5"
           new_episode "img_p5" "aud_p5");
    [done | by apply Hheld; listed.. | done | reflexivity].
Defined.
